(** * The ACME client registry of pkg/acme/accounts (registry.go)

    A shallow embedding of the registry that caches one ACME client per
    issuer UID, together with the properties its specification states.

    Go values are modelled as follows.
    - A [*acmeapi.Client] is an address into a heap of client objects;
      every call of [NewClient] allocates a fresh address, so the length
      of the heap counts the constructions performed so far.
    - [r.clients] is a finite map from UIDs to [clientWithMeta].
    - The maps handed out by [ListClients] live in a store of their own,
      so that a caller mutating such a map is an operation of the model.
    - A nil pointer dereference is a panic; a method is a computation
      that either returns or panics and leaves a world behind. *)

From Stdlib Require Import ZArith String Ascii List.
From Stdlib.Strings Require Import Byte.
From stdpp Require Import gmap strings list fin_maps.

Open Scope Z_scope.

(** ** Types of the imported packages *)

Module big.
(** [*big.Int]: nil, or an integer of arbitrary size. *)
Definition Int := option Z.
End big.

Module rsa.
Record PublicKey := mkPublicKey { N : big.Int; E : Z }.
Record PrivateKey := mkPrivateKey {
  Public : PublicKey;
  D : big.Int;
  Primes : list big.Int
}.
End rsa.

Module cmacme.
(** The fields of the issuer configuration; the registry reads
    [Server] and [SkipTLSVerify] only. *)
Record ACMEIssuer := mkACMEIssuer {
  Email : string;
  Server : string;
  SkipTLSVerify : bool
}.
End cmacme.

Module time.
(** A [time.Duration] counts nanoseconds. *)
Definition Duration := Z.
Definition Second : Duration := 1000000000.
End time.

Module http.
Record Dialer := mkDialer { Timeout : time.Duration; KeepAlive : time.Duration }.
Record Transport := mkTransport {
  ProxyFromEnvironment : bool;
  DialContext : Dialer;
  InsecureSkipVerify : bool;
  MaxIdleConns : Z;
  IdleConnTimeout : time.Duration;
  TLSHandshakeTimeout : time.Duration;
  ExpectContinueTimeout : time.Duration
}.
Record Client := mkClient { transport : Transport; timeout : time.Duration }.
End http.

Module acmeapi.
Record Client := mkClient {
  Key : option rsa.PrivateKey;
  HTTPClient : http.Client;
  DirectoryURL : string;
  UserAgent : string
}.
End acmeapi.

(** What the registry calls and this file does not define: the gob
    encoding of a [*big.Int], the user agent constant of package [util]
    and the instrumenting wrapper of package [acmecl]. *)
Class Imports := {
  GobEncode : big.Int -> list byte;
  CertManagerUserAgent : string;
  NewInstrumentedClient : http.Client -> http.Client
}.

(** ** Errors *)

Record errorString := mkError { message : string }.

(** A Go [error]: nil or an error value. *)
Definition error := option errorString.

Definition ErrNotFound : errorString :=
  mkError "ACME client for issuer not initialised/available".

(** ** The registry's data *)

(** Address of an allocated object. *)
Definition loc := nat.

Module acmecl.
(** An [acmecl.Interface] value: nil or a [*acmeapi.Client]. *)
Definition Interface := option loc.
End acmecl.

Record stableOptions := mkStableOptions {
  serverURL : string;
  skipVerifyTLS : bool;
  issuerUID : string;
  publicKey : string;
  exponent : Z
}.

Record clientWithMeta := mkClientWithMeta {
  Interface : acmecl.Interface;
  options : stableOptions
}.

(** The registry [r] with the objects it refers to and hands out. *)
Record world := mkWorld {
  clients : gmap string clientWithMeta;
  heap : list acmeapi.Client;
  snapshots : list (gmap string acmecl.Interface)
}.

(** ** Computations that may panic *)

Inductive outcome (A : Type) :=
| Returns (a : A)
| Panics.
Arguments Returns {A} a.
Arguments Panics {A}.

Definition M (A : Type) := world -> outcome A * world.

Definition ret {A} (a : A) : M A := fun w => (Returns a, w).

Definition bind {A B} (c : M A) (k : A -> M B) : M B :=
  fun w => match c w with
           | (Returns a, w') => k a w'
           | (Panics, w') => (Panics, w')
           end.

Definition panic {A} : M A := fun w => (Panics, w).

Definition gets {A} (f : world -> A) : M A := fun w => (Returns (f w), w).

Definition modify (f : world -> world) : M unit := fun w => (Returns tt, f w).

Definition lift {A} (o : option A) : M A :=
  match o with Some a => ret a | None => panic end.

#[global] Instance M_ret : MRet M := @ret.
#[global] Instance M_bind : MBind M := fun A B k c => bind c k.

Definition set_clients (f : gmap string clientWithMeta -> gmap string clientWithMeta)
    (w : world) : world :=
  mkWorld (f (clients w)) (heap w) (snapshots w).

Definition set_heap (f : list acmeapi.Client -> list acmeapi.Client)
    (w : world) : world :=
  mkWorld (clients w) (f (heap w)) (snapshots w).

Definition set_snapshots
    (f : list (gmap string acmecl.Interface) -> list (gmap string acmecl.Interface))
    (w : world) : world :=
  mkWorld (clients w) (heap w) (f (snapshots w)).

(** ** The registry *)

(** NewDefaultRegistry: an empty registry; nothing is allocated yet. *)
Definition NewDefaultRegistry : world := mkWorld ∅ [] [].

(** equalTo: [c == c2] on a struct compares the fields one by one. *)
Definition equalTo (c c2 : stableOptions) : bool :=
  String.eqb (serverURL c) (serverURL c2)
  && Bool.eqb (skipVerifyTLS c) (skipVerifyTLS c2)
  && String.eqb (issuerUID c) (issuerUID c2)
  && String.eqb (publicKey c) (publicKey c2)
  && Z.eqb (exponent c) (exponent c2).

Section Registry.
Context `{Imports}.

(** newStableOptions: [None] is the panic of dereferencing a nil
    [privateKey]; the error of [GobEncode] is dropped. *)
Definition newStableOptions (uid : string) (config : cmacme.ACMEIssuer)
    (privateKey : option rsa.PrivateKey) : option stableOptions :=
  match privateKey with
  | None => None
  | Some k =>
      let publicNBytes := GobEncode (rsa.N (rsa.Public k)) in
      Some {| serverURL := cmacme.Server config;
              skipVerifyTLS := cmacme.SkipTLSVerify config;
              issuerUID := uid;
              publicKey := string_of_list_byte publicNBytes;
              exponent := rsa.E (rsa.Public k) |}
  end.

Definition buildHTTPClient (skipTLSVerify : bool) : http.Client :=
  NewInstrumentedClient
    {| http.transport :=
         {| http.ProxyFromEnvironment := true;
            http.DialContext :=
              {| http.Timeout := 30 * time.Second;
                 http.KeepAlive := 30 * time.Second |};
            http.InsecureSkipVerify := skipTLSVerify;
            http.MaxIdleConns := 100;
            http.IdleConnTimeout := 90 * time.Second;
            http.TLSHandshakeTimeout := 10 * time.Second;
            http.ExpectContinueTimeout := 1 * time.Second |};
       http.timeout := time.Second * 30 |}.

(** The struct literal of [NewClient]. *)
Definition clientValue (config : cmacme.ACMEIssuer)
    (privateKey : option rsa.PrivateKey) : acmeapi.Client :=
  {| acmeapi.Key := privateKey;
     acmeapi.HTTPClient := buildHTTPClient (cmacme.SkipTLSVerify config);
     acmeapi.DirectoryURL := cmacme.Server config;
     acmeapi.UserAgent := CertManagerUserAgent |}.

(** NewClient: [&acmeapi.Client{...}] puts the literal at a fresh
    address and returns the address. *)
Definition NewClient (config : cmacme.ACMEIssuer)
    (privateKey : option rsa.PrivateKey) : M acmecl.Interface :=
  fun w =>
    (Returns (Some (length (heap w))),
     set_heap (fun h => h ++ [clientValue config privateKey]) w).

Definition ensureClient (uid : string) (config : cmacme.ACMEIssuer)
    (privateKey : option rsa.PrivateKey) : M unit :=
  newOpts ← lift (newStableOptions uid config privateKey);
  r ← gets clients;
  if match r !! uid with
     | Some meta => equalTo (options meta) newOpts
     | None => false
     end
  then ret tt
  else
    c ← NewClient config privateKey;
    modify (set_clients <[uid := mkClientWithMeta c newOpts]>).

Definition AddClient (uid : string) (config : cmacme.ACMEIssuer)
    (privateKey : option rsa.PrivateKey) : M unit :=
  ensureClient uid config privateKey.

Definition GetClient (uid : string) : M (acmecl.Interface * error) :=
  r ← gets clients;
  match r !! uid with
  | Some c => ret (Interface c, None)
  | None => ret (None, Some ErrNotFound)
  end.

Definition RemoveClient (uid : string) : M unit :=
  r ← gets clients;
  match r !! uid with
  | None => ret tt
  | Some _ => modify (set_clients (delete uid))
  end.

(** [out[k] = v] on the map at address [m]. *)
Definition mapAssign (m : loc) (k : string) (v : acmecl.Interface)
    (w : world) : world :=
  set_snapshots (alter <[k := v]> m) w.

(** [delete(out, k)] on the map at address [m]. *)
Definition mapDelete (m : loc) (k : string) (w : world) : world :=
  set_snapshots (alter (delete k) m) w.

(** ListClients: [make] allocates the map [out], the range loop
    fills it, and its address is returned. *)
Definition ListClients : M loc :=
  fun w =>
    let out := length (snapshots w) in
    let w1 := set_snapshots (fun s => s ++ [∅]) w in
    (Returns out,
     map_fold (fun k v w' => mapAssign out k (Interface v) w') w1 (clients w)).

(** ** Observations on a world *)

(** The number of clients constructed so far. *)
Definition constructions (w : world) : nat := length (heap w).

(** The condition of the fast path of [ensureClient]. *)
Definition upToDate (uid : string) (newOpts : stableOptions) (w : world) : bool :=
  match clients w !! uid with
  | Some meta => equalTo (options meta) newOpts
  | None => false
  end.

(** An interface value that holds the address of an allocated client. *)
Definition allocated (w : world) (c : acmecl.Interface) : Prop :=
  exists p, c = Some p /\ (p < length (heap w))%nat.

(** The world a computation leaves behind. *)
Definition after {A} (c : M A) (w : world) : world := snd (c w).

(** An entry holds a client that [NewClient] built from inputs whose
    fingerprint is the stored one. *)
Definition entry_ok (w : world) (uid : string) (meta : clientWithMeta) : Prop :=
  exists p config privateKey,
    Interface meta = Some p
    /\ heap w !! p = Some (clientValue config privateKey)
    /\ newStableOptions uid config privateKey = Some (options meta).

Definition registry_inv (w : world) : Prop :=
  forall uid meta, clients w !! uid = Some meta -> entry_ok w uid meta.

(** What the specification says of [GetClient] after [ensureClient]:
    the client that [GetClient] returns after the call was built from
    exactly the inputs of the call. *)
Definition returns_client_of_inputs (w : world) (uid : string)
    (config : cmacme.ACMEIssuer) (privateKey : option rsa.PrivateKey) : Prop :=
  forall w',
    ensureClient uid config privateKey w = (Returns tt, w') ->
    exists p,
      GetClient uid w' = (Returns (Some p, None), w')
      /\ heap w' !! p = Some (clientValue config privateKey).

(** ** Sequences of calls on one registry *)

Inductive call :=
| CallAddClient (uid : string) (config : cmacme.ACMEIssuer)
    (privateKey : option rsa.PrivateKey)
| CallRemoveClient (uid : string)
| CallGetClient (uid : string)
| CallListClients.

Definition exec (c : call) (w : world) : world :=
  match c with
  | CallAddClient uid config privateKey => after (AddClient uid config privateKey) w
  | CallRemoveClient uid => after (RemoveClient uid) w
  | CallGetClient uid => after (GetClient uid) w
  | CallListClients => after ListClients w
  end.

Definition run (cs : list call) (w : world) : world :=
  fold_left (fun w' c => exec c w') cs w.

(** The UIDs that the calls pass to [AddClient]. *)
Definition added (cs : list call) : list string :=
  omap (fun c => match c with
                 | CallAddClient uid _ _ => Some uid
                 | _ => None
                 end) cs.

End Registry.

(** ** Goroutines that call [ensureClient] on one registry

    The body of [ensureClient], statement by statement.  A goroutine is
    at one of these points; [r.lock] is held by a writer or free. *)

Inductive pc :=
| AtLock
| AtNewStableOptions
| AtCompare (newOpts : stableOptions)
| AtNewClient (newOpts : stableOptions)
| AtStore (newOpts : stableOptions) (c : acmecl.Interface)
| AtUnlock (panicking : bool)
| Returned
| Crashed.

Record system := mkSystem {
  shared : world;
  locked : bool;
  goroutines : list pc
}.

Section Goroutines.
Context `{Imports}.
Variables (uid : string) (config : cmacme.ACMEIssuer)
  (privateKey : option rsa.PrivateKey).

(** One statement of one goroutine; [None] when it waits for the lock
    or has finished.  The deferred [Unlock] runs on return and on panic. *)
Definition goroutine_step (w : world) (l : bool) (p : pc)
    : option (world * bool * pc) :=
  match p with
  | AtLock => if l then None else Some (w, true, AtNewStableOptions)
  | AtNewStableOptions =>
      match newStableOptions uid config privateKey with
      | Some newOpts => Some (w, l, AtCompare newOpts)
      | None => Some (w, l, AtUnlock true)
      end
  | AtCompare newOpts =>
      if match clients w !! uid with
         | Some meta => equalTo (options meta) newOpts
         | None => false
         end
      then Some (w, l, AtUnlock false)
      else Some (w, l, AtNewClient newOpts)
  | AtNewClient newOpts =>
      match NewClient config privateKey w with
      | (Returns c, w') => Some (w', l, AtStore newOpts c)
      | (Panics, w') => Some (w', l, AtUnlock true)
      end
  | AtStore newOpts c =>
      Some (set_clients <[uid := mkClientWithMeta c newOpts]> w, l, AtUnlock false)
  | AtUnlock panicking =>
      Some (w, false, if panicking then Crashed else Returned)
  | Returned | Crashed => None
  end.

(** Any goroutine that can take a step may be the next to take one. *)
Inductive step : system -> system -> Prop :=
| step_goroutine s i p w' l' p' :
    goroutines s !! i = Some p ->
    goroutine_step (shared s) (locked s) p = Some (w', l', p') ->
    step s (mkSystem w' l' (<[i := p']> (goroutines s))).

(** Goroutine [i] runs its next statement, if it has one and need not
    wait; a schedule names the goroutines in the order they run. *)
Definition fire (i : nat) (s : system) : system :=
  match goroutines s !! i with
  | Some p =>
      match goroutine_step (shared s) (locked s) p with
      | Some (w', l', p') => mkSystem w' l' (<[i := p']> (goroutines s))
      | None => s
      end
  | None => s
  end.

Definition schedule (order : list nat) (s : system) : system :=
  fold_left (fun s' i => fire i s') order s.

(** [n] goroutines about to call [ensureClient] on the registry of [w]. *)
Definition start (n : nat) (w : world) : system :=
  mkSystem w false (replicate n AtLock).

Definition all_returned (s : system) : Prop :=
  Forall (fun p => p = Returned) (goroutines s).

(** The statements a goroutine still has to run, at most. *)
Definition remaining (p : pc) : nat :=
  match p with
  | AtLock => 6
  | AtNewStableOptions => 5
  | AtCompare _ => 4
  | AtNewClient _ => 3
  | AtStore _ _ => 2
  | AtUnlock _ => 1
  | Returned | Crashed => 0
  end.

Definition work (s : system) : nat := sum_list (remaining <$> goroutines s).

(** The goroutines never disagree about the registry: with [w0] the
    world at the start and [w1] the world after one call, the holder of
    the lock sees one of the two, or the world in the middle of the only
    construction; the others are outside the lock. *)
Variables (w0 : world) (newOpts0 : stableOptions).

Definition w1 : world := after (ensureClient uid config privateKey) w0.

Definition inside (p : pc) (w : world) : Prop :=
  match p with
  | AtNewStableOptions => w = w0 \/ w = w1
  | AtCompare newOpts => newOpts = newOpts0 /\ (w = w0 \/ w = w1)
  | AtNewClient newOpts =>
      newOpts = newOpts0 /\ w = w0 /\ upToDate uid newOpts0 w0 = false
  | AtStore newOpts c =>
      newOpts = newOpts0 /\ c = Some (length (heap w0))
      /\ w = set_heap (fun h => h ++ [clientValue config privateKey]) w0
      /\ upToDate uid newOpts0 w0 = false
  | AtUnlock panicking => panicking = false /\ w = w1
  | AtLock | Returned | Crashed => False
  end.

Definition outside (p : pc) : Prop := p = AtLock \/ p = Returned.

(** The points between [Lock] and the deferred [Unlock]. *)
Definition holds_lock (p : pc) : bool :=
  match p with
  | AtLock | Returned | Crashed => false
  | _ => true
  end.

Definition exclusive (s : system) : Prop :=
  if locked s
  then exists i p,
      goroutines s !! i = Some p /\ inside p (shared s)
      /\ forall j q, j <> i -> goroutines s !! j = Some q -> outside q
  else (forall j q, goroutines s !! j = Some q -> outside q)
       /\ (shared s = w1
           \/ (shared s = w0
               /\ forall j q, goroutines s !! j = Some q -> q = AtLock)).

End Goroutines.

(** ** Who owns a client *)

Section Ownership.
Context `{Imports}.

(** Every entry holds an allocated client, and no two entries hold the
    same one. *)
Definition separate_clients (w : world) : Prop :=
  (forall uid meta, clients w !! uid = Some meta -> allocated w (Interface meta))
  /\ (forall uid uid' meta meta',
        clients w !! uid = Some meta -> clients w !! uid' = Some meta' ->
        Interface meta = Interface meta' -> uid = uid').

End Ownership.

(** ** Goroutines that call any method of the registry

    [RemoveClient], [GetClient] and [ListClients], statement by statement,
    beside the points of [ensureClient] above.  [r.lock] is held by one
    writer or by a number of readers: [Lock] waits while anyone holds it,
    [RLock] while a writer does.  The range loop of [ListClients] visits
    the entries in the order of [map_to_list]; Go leaves the order open,
    and the map that the loop fills does not depend on it. *)

Inductive remove_pc :=
| RmAtLock
| RmAtLookup
| RmAtDelete
| RmAtUnlock
| RmReturned.

Inductive get_pc :=
| GetAtRLock
| GetAtLookup
| GetAtRUnlock (result : acmecl.Interface * error)
| GetReturned (result : acmecl.Interface * error).

Inductive list_pc :=
| LsAtRLock
| LsAtMake
| LsAtRange (out : loc) (rest : list (string * clientWithMeta))
| LsAtRUnlock (out : loc)
| LsReturned (out : loc).

Inductive thread :=
| Adding (uid : string) (config : cmacme.ACMEIssuer)
    (privateKey : option rsa.PrivateKey) (p : pc)
| Removing (uid : string) (p : remove_pc)
| Getting (uid : string) (p : get_pc)
| Listing (p : list_pc).

Record process := mkProcess {
  memory : world;
  writer : bool;
  readers : nat;
  threads : list thread
}.

Section Threads.
Context `{Imports}.

(** One statement of one thread; [None] when it waits or has finished.
    Inside the lock [ensureClient] runs as in [goroutine_step].  At
    [LsAtMake] the map [out] is made and the range over [r.clients]
    begins; at [LsAtRange] the loop runs one turn, or ends. *)
Definition thread_step (w : world) (wr : bool) (rd : nat) (t : thread)
    : option (world * bool * nat * thread) :=
  match t with
  | Adding uid config privateKey AtLock =>
      if wr || negb (rd =? 0)%nat then None
      else Some (w, true, rd, Adding uid config privateKey AtNewStableOptions)
  | Adding uid config privateKey p =>
      match goroutine_step uid config privateKey w wr p with
      | Some (w', wr', p') => Some (w', wr', rd, Adding uid config privateKey p')
      | None => None
      end
  | Removing uid RmAtLock =>
      if wr || negb (rd =? 0)%nat then None
      else Some (w, true, rd, Removing uid RmAtLookup)
  | Removing uid RmAtLookup =>
      match clients w !! uid with
      | None => Some (w, wr, rd, Removing uid RmAtUnlock)
      | Some _ => Some (w, wr, rd, Removing uid RmAtDelete)
      end
  | Removing uid RmAtDelete =>
      Some (set_clients (delete uid) w, wr, rd, Removing uid RmAtUnlock)
  | Removing uid RmAtUnlock => Some (w, false, rd, Removing uid RmReturned)
  | Removing uid RmReturned => None
  | Getting uid GetAtRLock =>
      if wr then None else Some (w, wr, S rd, Getting uid GetAtLookup)
  | Getting uid GetAtLookup =>
      Some (w, wr, rd,
            Getting uid
              (GetAtRUnlock match clients w !! uid with
                            | Some c => (Interface c, None)
                            | None => (None, Some ErrNotFound)
                            end))
  | Getting uid (GetAtRUnlock result) =>
      Some (w, wr, Nat.pred rd, Getting uid (GetReturned result))
  | Getting uid (GetReturned _) => None
  | Listing LsAtRLock =>
      if wr then None else Some (w, wr, S rd, Listing LsAtMake)
  | Listing LsAtMake =>
      Some (set_snapshots (fun s => s ++ [∅]) w, wr, rd,
            Listing (LsAtRange (length (snapshots w)) (map_to_list (clients w))))
  | Listing (LsAtRange out ((k, v) :: rest)) =>
      Some (mapAssign out k (Interface v) w, wr, rd, Listing (LsAtRange out rest))
  | Listing (LsAtRange out []) => Some (w, wr, rd, Listing (LsAtRUnlock out))
  | Listing (LsAtRUnlock out) =>
      Some (w, wr, Nat.pred rd, Listing (LsReturned out))
  | Listing (LsReturned _) => None
  end.

Inductive thread_runs : process -> process -> Prop :=
| thread_runs_step s i t w' wr' rd' t' :
    threads s !! i = Some t ->
    thread_step (memory s) (writer s) (readers s) t = Some (w', wr', rd', t') ->
    thread_runs s (mkProcess w' wr' rd' (<[i := t']> (threads s))).

(** Thread [i] runs its next statement, if it has one and need not wait;
    an order names the threads as they run. *)
Definition advance (i : nat) (s : process) : process :=
  match threads s !! i with
  | Some t =>
      match thread_step (memory s) (writer s) (readers s) t with
      | Some (w', wr', rd', t') => mkProcess w' wr' rd' (<[i := t']> (threads s))
      | None => s
      end
  | None => s
  end.

Definition interleave (order : list nat) (s : process) : process :=
  fold_left (fun s' i => advance i s') order s.

(** The call a thread makes. *)
Definition call_of (t : thread) : call :=
  match t with
  | Adding uid config privateKey _ => CallAddClient uid config privateKey
  | Removing uid _ => CallRemoveClient uid
  | Getting uid _ => CallGetClient uid
  | Listing _ => CallListClients
  end.

Definition uid_of (t : thread) : string :=
  match t with
  | Adding uid _ _ _ | Removing uid _ | Getting uid _ => uid
  | Listing _ => ""
  end.

Definition at_start (t : thread) : bool :=
  match t with
  | Adding _ _ _ AtLock | Removing _ RmAtLock | Getting _ GetAtRLock
  | Listing LsAtRLock => true
  | _ => false
  end.

Definition finished (t : thread) : bool :=
  match t with
  | Adding _ _ _ Returned | Adding _ _ _ Crashed
  | Removing _ RmReturned | Getting _ (GetReturned _)
  | Listing (LsReturned _) => true
  | _ => false
  end.

(** Between [Lock] and [Unlock]. *)
Definition writing (t : thread) : bool :=
  match t with
  | Adding _ _ _ p => holds_lock p
  | Removing _ (RmAtLookup | RmAtDelete | RmAtUnlock) => true
  | _ => false
  end.

(** Between [RLock] and [RUnlock]. *)
Definition reading (t : thread) : bool :=
  match t with
  | Getting _ (GetAtLookup | GetAtRUnlock _) => true
  | Listing (LsAtMake | LsAtRange _ _ | LsAtRUnlock _) => true
  | _ => false
  end.

(** What [GetClient] has looked up, once it has. *)
Definition result_of (t : thread) : option (acmecl.Interface * error) :=
  match t with
  | Getting _ (GetAtRUnlock result | GetReturned result) => Some result
  | _ => None
  end.

(** The map that [ListClients] has allocated, once it has. *)
Definition listed_of (t : thread) : option loc :=
  match t with
  | Listing (LsAtRange out _ | LsAtRUnlock out | LsReturned out) => Some out
  | _ => None
  end.

(** The threads started on the registry of [w], none holding the lock. *)
Definition launch (ts : list thread) (w : world) : process :=
  mkProcess w false 0 ts.

(** The calls of the threads [order] names, in that order. *)
Definition sequence (ts : list thread) (order : list nat) : list call :=
  omap (fun j => call_of <$> ts !! j) order.

(** An [ensureClient] that may still add an entry. *)
Definition before_store (t : thread) : bool :=
  match t with
  | Adding _ _ _ (AtLock | AtNewStableOptions | AtCompare _ | AtNewClient _
                  | AtStore _ _) => true
  | _ => false
  end.

Definition count_before_store (ts : list thread) : nat :=
  sum_list ((fun t => if before_store t then 1%nat else 0%nat) <$> ts).

(** A bound on the entries that the registry can come to hold. *)
Definition potential (s : process) : nat :=
  size (clients (memory s)) + count_before_store (threads s).

(** The statements a thread still has to run, at most, when the registry
    holds no more than [entries] entries once it ranges over them. *)
Definition cost (entries : nat) (t : thread) : nat :=
  match t with
  | Adding _ _ _ p => remaining p
  | Removing _ RmAtLock => 4
  | Removing _ RmAtLookup => 3
  | Removing _ RmAtDelete => 2
  | Removing _ RmAtUnlock => 1
  | Removing _ RmReturned => 0
  | Getting _ GetAtRLock => 3
  | Getting _ GetAtLookup => 2
  | Getting _ (GetAtRUnlock _) => 1
  | Getting _ (GetReturned _) => 0
  | Listing LsAtRLock => entries + 4
  | Listing LsAtMake => entries + 3
  | Listing (LsAtRange _ rest) => length rest + 2
  | Listing (LsAtRUnlock _) => 1
  | Listing (LsReturned _) => 0
  end.

Definition work_left (s : process) : nat :=
  sum_list (cost (potential s) <$> threads s).

Definition count_reading (ts : list thread) : nat :=
  sum_list ((fun t => if reading t then 1%nat else 0%nat) <$> ts).

(** The calls whose effect is in the registry, in the order they took
    effect: a writer's when it unlocks, a reader's when it looks up. *)
Definition took_effect (t : thread) : bool :=
  finished t
  || match result_of t with Some _ => true | None => false end
  || match listed_of t with Some _ => true | None => false end.

(** The map that the rest of the range loop makes of [m]. *)
Definition fill (rest : list (string * clientWithMeta))
    (m : gmap string acmecl.Interface) : gmap string acmecl.Interface :=
  fold_left (fun m' kv => <[kv.1 := Interface kv.2]> m') rest m.

(** The world [w] of the threads, seen from the world [base] that the
    calls that took effect leave behind: the same, but that a map which a
    [ListClients] is still filling lacks the rest of its entries. *)
Definition agrees (base w : world) (ts : list thread) : Prop :=
  clients w = clients base
  /\ heap w = heap base
  /\ length (snapshots w) = length (snapshots base)
  /\ (forall j out rest,
        ts !! j = Some (Listing (LsAtRange out rest)) ->
        exists m,
          snapshots w !! out = Some m
          /\ snapshots base !! out = Some (fill rest m))
  /\ (forall out,
        (forall j rest, ts !! j <> Some (Listing (LsAtRange out rest))) ->
        snapshots w !! out = snapshots base !! out)
  /\ (forall j j' out rest rest',
        ts !! j = Some (Listing (LsAtRange out rest)) ->
        ts !! j' = Some (Listing (LsAtRange out rest')) ->
        j = j').

(** How far the holder of the lock has got from the world [base]. *)
Definition midway (t : thread) (base w : world) : Prop :=
  match t with
  | Adding uid config privateKey p =>
      match p with
      | AtNewStableOptions => w = base
      | AtCompare newOpts =>
          newStableOptions uid config privateKey = Some newOpts /\ w = base
      | AtNewClient newOpts =>
          newStableOptions uid config privateKey = Some newOpts /\ w = base
          /\ upToDate uid newOpts base = false
      | AtStore newOpts c =>
          newStableOptions uid config privateKey = Some newOpts
          /\ upToDate uid newOpts base = false
          /\ c = Some (length (heap base))
          /\ w = set_heap (fun h => h ++ [clientValue config privateKey]) base
      | AtUnlock _ => w = after (ensureClient uid config privateKey) base
      | AtLock | Returned | Crashed => False
      end
  | Removing uid p =>
      match p with
      | RmAtLookup => w = base
      | RmAtDelete => w = base /\ clients base !! uid <> None
      | RmAtUnlock => w = after (RemoveClient uid) base
      | RmAtLock | RmReturned => False
      end
  | Getting _ _ | Listing _ => False
  end.

(** What holds of every process the threads [ts0] reach from [w0]. *)
Definition serial (ts0 : list thread) (w0 : world) (s : process) : Prop :=
  exists done : list nat,
    NoDup done
    /\ call_of <$> threads s = call_of <$> ts0
    /\ (forall j t, threads s !! j = Some t -> (j ∈ done <-> took_effect t = true))
    /\ (forall j, j ∈ done -> (j < length ts0)%nat)
    /\ readers s = count_reading (threads s)
    /\ (forall j t result,
          threads s !! j = Some t ->
          result_of t = Some result ->
          exists pre post,
            done = pre ++ j :: post
            /\ fst (GetClient (uid_of t) (run (sequence ts0 pre) w0))
               = Returns result)
    /\ (forall j t out,
          threads s !! j = Some t ->
          listed_of t = Some out ->
          exists pre post,
            done = pre ++ j :: post
            /\ out = length (snapshots (run (sequence ts0 pre) w0)))
    /\ if writer s
       then readers s = 0%nat
            /\ exists i t,
                threads s !! i = Some t
                /\ midway t (run (sequence ts0 done) w0) (memory s)
                /\ forall j t', j <> i -> threads s !! j = Some t' -> writing t' = false
       else agrees (run (sequence ts0 done) w0) (memory s) (threads s)
            /\ forall j t, threads s !! j = Some t -> writing t = false.

End Threads.

(** ** An instance of the imports, for running the registry *)

Module sample.

Definition byte_of_Z (n : Z) : byte :=
  match Byte.of_N (Z.to_N n) with Some b => b | None => x00 end.

(** The magnitude of [n], most significant byte first, without
    leading zero bytes. *)
Fixpoint magnitude (fuel : nat) (n : Z) (acc : list byte) : list byte :=
  match fuel with
  | O => acc
  | S fuel' =>
      if n =? 0 then acc
      else magnitude fuel' (n / 256) (byte_of_Z (n mod 256) :: acc)
  end.

(** Gob encoding of math/big: nothing for a nil receiver, otherwise a
    byte holding the version (1) and the sign bit, then the magnitude. *)
Definition IntGobEncode (x : big.Int) : list byte :=
  match x with
  | None => []
  | Some z =>
      (if z <? 0 then x03 else x02)
        :: magnitude (S (Z.to_nat (Z.log2 (Z.abs z)))) (Z.abs z) []
  end.

Definition imports : Imports := {|
  GobEncode := IntGobEncode;
  CertManagerUserAgent := "jetstack-cert-manager/canary";
  NewInstrumentedClient := fun c => c
|}.

Definition key : rsa.PrivateKey :=
  rsa.mkPrivateKey (rsa.mkPublicKey (Some 3233) 17) (Some 413) [Some 61; Some 53].

(** The same public key with another private exponent. *)
Definition key' : rsa.PrivateKey :=
  rsa.mkPrivateKey (rsa.mkPublicKey (Some 3233) 17) (Some 2753) [Some 61; Some 53].

Definition otherKey : rsa.PrivateKey :=
  rsa.mkPrivateKey (rsa.mkPublicKey (Some 3127) 17) (Some 2033) [Some 59; Some 53].

Definition config : cmacme.ACMEIssuer :=
  cmacme.mkACMEIssuer "admin@example.com" "https://acme.example/directory" false.

Definition staging : cmacme.ACMEIssuer :=
  cmacme.mkACMEIssuer "admin@example.com" "https://staging.example/directory" false.

(** [config] with the verification of TLS certificates switched off. *)
Definition insecure : cmacme.ACMEIssuer :=
  cmacme.mkACMEIssuer "admin@example.com" "https://acme.example/directory" true.

(** [key] with another public exponent. *)
Definition keyE3 : rsa.PrivateKey :=
  rsa.mkPrivateKey (rsa.mkPublicKey (Some 3233) 3) (Some 413) [Some 61; Some 53].

Definition registered : world :=
  after (AddClient (H := imports) "a" config (Some key)) NewDefaultRegistry.

(** Three threads: two add clients, the second with a nil key, and one
    gets the client of the first. *)
Definition three_threads : list thread :=
  [Adding "a" config (Some key) AtLock;
   Adding "b" staging None AtLock;
   Getting "a" GetAtRLock].

(** Four threads on a registry that holds a client for UID [a]: one
    replaces it, one removes it, and two list the clients. *)
Definition four_threads : list thread :=
  [Listing LsAtRLock;
   Adding "a" staging (Some otherKey) AtLock;
   Listing LsAtRLock;
   Removing "a" RmAtLock].

(** The two listers read together, then the adder and the remover write,
    one after the other. *)
Definition four_order : list nat :=
  [0; 2; 0; 1; 2; 0; 2; 2; 0; 0; 2;
   3; 1; 3; 3; 3; 1; 1; 1; 1; 1; 1]%nat.

(** The getter is first to lock; while it reads, the first adder has to
    wait; the second adder panics under the lock. *)
Definition three_order : list nat :=
  [2; 0; 2; 2; 1; 0; 1; 0; 1; 0; 0; 0; 0; 0; 0]%nat.

End sample.

Example GobEncode_3233 :
  sample.IntGobEncode (Some 3233) = [x02; x0c; xa1].
Proof. reflexivity. Qed.

Example GobEncode_zero : sample.IntGobEncode (Some 0) = [x02].
Proof. reflexivity. Qed.

Example GobEncode_negative : sample.IntGobEncode (Some (-256)) = [x03; x01; x00].
Proof. reflexivity. Qed.

Example registered_heap :
  heap sample.registered
  = [clientValue (H := sample.imports) sample.config (Some sample.key)].
Proof. reflexivity. Qed.

Example list_after_two_registrations :
  let w := run (H := sample.imports)
             [CallAddClient "a" sample.config (Some sample.key);
              CallAddClient "b" sample.staging (Some sample.otherKey);
              CallListClients] NewDefaultRegistry in
  snapshots w = [{["a" := Some 0%nat; "b" := Some 1%nat]}]
  /\ constructions w = 2%nat.
Proof. vm_compute. split; reflexivity. Qed.

Example remove_then_get :
  let w := run (H := sample.imports)
             [CallAddClient "a" sample.config (Some sample.key);
              CallRemoveClient "a"] NewDefaultRegistry in
  fst (GetClient "a" w) = Returns (None, Some ErrNotFound).
Proof. vm_compute. reflexivity. Qed.

Example two_goroutines_interleaved :
  let s := schedule (H := sample.imports) "a" sample.config (Some sample.key)
             [1; 0; 1; 0; 1; 1; 0; 1; 0; 1; 0; 0; 0; 0]%nat
             (start 2 NewDefaultRegistry) in
  goroutines s = [Returned; Returned]
  /\ locked s = false
  /\ constructions (shared s) = 1%nat
  /\ shared s = sample.registered.
Proof. vm_compute. repeat split; reflexivity. Qed.

Example flag_flipped_rebuilds :
  let w := run (H := sample.imports)
             [CallAddClient "a" sample.config (Some sample.key);
              CallAddClient "a" sample.insecure (Some sample.key)]
             NewDefaultRegistry in
  constructions w = 2%nat
  /\ fst (GetClient "a" w) = Returns (Some 1%nat, None)
  /\ heap w !! 1%nat
     = Some (clientValue (H := sample.imports) sample.insecure (Some sample.key)).
Proof. vm_compute. repeat split; reflexivity. Qed.

Example empty_uid_replaced :
  let w := run (H := sample.imports)
             [CallAddClient "" sample.config (Some sample.key);
              CallAddClient "" sample.staging (Some sample.key)]
             NewDefaultRegistry in
  constructions w = 2%nat
  /\ fst (GetClient "" w) = Returns (Some 1%nat, None)
  /\ heap w !! 1%nat
     = Some (clientValue (H := sample.imports) sample.staging (Some sample.key)).
Proof. vm_compute. repeat split; reflexivity. Qed.

Example registered_lookup :
  clients sample.registered !! "a"
  = Some (mkClientWithMeta (Some 0%nat)
            (mkStableOptions "https://acme.example/directory" false "a"
               (string_of_list_byte [x02; x0c; xa1]) 17)).
Proof. vm_compute. reflexivity. Qed.

(** * Properties *)

(** ** Equality of fingerprints *)

Lemma equalTo_true (c c2 : stableOptions) : equalTo c c2 = true <-> c = c2.
Proof.
  unfold equalTo. rewrite !andb_true_iff, !String.eqb_eq, Z.eqb_eq, Bool.eqb_true_iff.
  destruct c, c2; simpl. split.
  - intros [[[[-> ->] ->] ->] ->]. reflexivity.
  - intros [= -> -> -> -> ->]. tauto.
Qed.

Lemma equalTo_refl (c : stableOptions) : equalTo c c = true.
Proof. apply equalTo_true. reflexivity. Qed.

Lemma equalTo_false (c c2 : stableOptions) : equalTo c c2 = false <-> c <> c2.
Proof.
  rewrite <- equalTo_true. destruct (equalTo c c2); split; congruence.
Qed.

Section Sequential.
Context `{Imports}.

(** ** The three ways through [ensureClient] *)

Lemma ensureClient_panics uid config privateKey w :
  newStableOptions uid config privateKey = None ->
  ensureClient uid config privateKey w = (Panics, w).
Proof.
  intros HF. unfold ensureClient, mbind, M_bind, bind. rewrite HF. reflexivity.
Qed.

Lemma ensureClient_hit uid config privateKey newOpts w :
  newStableOptions uid config privateKey = Some newOpts ->
  upToDate uid newOpts w = true ->
  ensureClient uid config privateKey w = (Returns tt, w).
Proof.
  intros HF Hhit. unfold ensureClient, mbind, M_bind, bind. rewrite HF. simpl.
  unfold upToDate in Hhit. rewrite Hhit. reflexivity.
Qed.

Lemma ensureClient_miss uid config privateKey newOpts w :
  newStableOptions uid config privateKey = Some newOpts ->
  upToDate uid newOpts w = false ->
  ensureClient uid config privateKey w
  = (Returns tt,
     mkWorld (<[uid := mkClientWithMeta (Some (length (heap w))) newOpts]> (clients w))
             (heap w ++ [clientValue config privateKey])
             (snapshots w)).
Proof.
  intros HF Hmiss. unfold ensureClient, mbind, M_bind, bind. rewrite HF. simpl.
  unfold upToDate in Hmiss. rewrite Hmiss. reflexivity.
Qed.

Lemma upToDate_true uid newOpts w :
  upToDate uid newOpts w = true
  <-> exists meta, clients w !! uid = Some meta /\ options meta = newOpts.
Proof.
  unfold upToDate. split.
  - destruct (clients w !! uid) as [meta|]; [|discriminate].
    intros Heq%equalTo_true. eauto.
  - intros (meta & -> & <-). apply equalTo_refl.
Qed.

Lemma upToDate_after_miss uid config privateKey newOpts w :
  newStableOptions uid config privateKey = Some newOpts ->
  upToDate uid newOpts (after (ensureClient uid config privateKey) w) = true.
Proof.
  intros HF. unfold after. destruct (upToDate uid newOpts w) eqn:Hup.
  - rewrite (ensureClient_hit _ _ _ _ _ HF Hup). exact Hup.
  - rewrite (ensureClient_miss _ _ _ _ _ HF Hup). simpl.
    unfold upToDate. simpl. rewrite lookup_insert_eq. apply equalTo_refl.
Qed.

Lemma ensureClient_returns uid config privateKey newOpts w :
  newStableOptions uid config privateKey = Some newOpts ->
  ensureClient uid config privateKey w
  = (Returns tt, after (ensureClient uid config privateKey) w).
Proof.
  intros HF. unfold after. destruct (upToDate uid newOpts w) eqn:Hup.
  - rewrite (ensureClient_hit _ _ _ _ _ HF Hup). reflexivity.
  - rewrite (ensureClient_miss _ _ _ _ _ HF Hup). reflexivity.
Qed.

End Sequential.

Section FastPath.
Context `{Imports}.

(** C1. When the entry of [uid] already stores the fingerprint of
    [(uid, config, privateKey)], [ensureClient] returns without
    constructing a client and leaves the world as it was.  Hence of two
    calls with the same inputs the second one changes nothing, and the
    two together construct exactly one client when the fingerprint was
    not stored before the first. *)
Theorem ensureClient_twice_constructs_once
    (w : world) (uid : string) (config : cmacme.ACMEIssuer)
    (privateKey : option rsa.PrivateKey) (newOpts : stableOptions) :
  newStableOptions uid config privateKey = Some newOpts ->
  (forall meta,
      clients w !! uid = Some meta -> options meta = newOpts ->
      ensureClient uid config privateKey w = (Returns tt, w))
  /\ exists w1,
      ensureClient uid config privateKey w = (Returns tt, w1)
      /\ ensureClient uid config privateKey w1 = (Returns tt, w1)
      /\ ((forall meta, clients w !! uid = Some meta -> options meta <> newOpts) ->
          constructions w1 = S (constructions w)).
Proof.
  intros HF. split.
  - intros meta Hmeta Hopts. apply (ensureClient_hit _ _ _ newOpts); [exact HF|].
    apply upToDate_true. eauto.
  - exists (after (ensureClient uid config privateKey) w). split; [|split].
    + apply (ensureClient_returns _ _ _ newOpts), HF.
    + apply (ensureClient_hit _ _ _ newOpts); [exact HF|].
      apply upToDate_after_miss, HF.
    + intros Hnew. unfold after.
      assert (upToDate uid newOpts w = false) as Hup.
      { destruct (upToDate uid newOpts w) eqn:Hup; [|reflexivity].
        apply upToDate_true in Hup as (meta & Hmeta & Hopts).
        destruct (Hnew meta Hmeta Hopts). }
      rewrite (ensureClient_miss _ _ _ _ _ HF Hup). unfold constructions. simpl.
      rewrite length_app. simpl. lia.
Qed.

End FastPath.

Lemma ensureClient_twice_constructs_once_witness :
  let H := sample.imports in
  let w := NewDefaultRegistry in
  let newOpts :=
    mkStableOptions "https://acme.example/directory" false "a"
      (string_of_list_byte [x02; x0c; xa1]) 17 in
  (forall meta,
      clients w !! "a" = Some meta -> options meta = newOpts ->
      ensureClient "a" sample.config (Some sample.key) w = (Returns tt, w))
  /\ exists w1,
      ensureClient "a" sample.config (Some sample.key) w = (Returns tt, w1)
      /\ ensureClient "a" sample.config (Some sample.key) w1 = (Returns tt, w1)
      /\ ((forall meta, clients w !! "a" = Some meta -> options meta <> newOpts) ->
          constructions w1 = S (constructions w)).
Proof.
  intros H w newOpts.
  apply (ensureClient_twice_constructs_once (H := H) w "a" sample.config
           (Some sample.key) newOpts).
  reflexivity.
Defined.

Section Replacement.
Context `{Imports}.

Lemma GetClient_lookup uid w :
  GetClient uid w
  = (Returns match clients w !! uid with
             | Some c => (Interface c, None)
             | None => (None, Some ErrNotFound)
             end, w).
Proof.
  unfold GetClient, mbind, M_bind, bind. simpl.
  destruct (clients w !! uid); reflexivity.
Qed.

Lemma string_of_list_byte_inj (l l' : list byte) :
  string_of_list_byte l = string_of_list_byte l' -> l = l'.
Proof.
  intros Heq. rewrite <- (list_byte_of_string_of_list_byte l),
    <- (list_byte_of_string_of_list_byte l'), Heq. reflexivity.
Qed.

(** C2. [equalTo] holds exactly when the five fields agree.  Let the
    entry of [uid] hold an allocated client and the fingerprint that
    [newStableOptions] takes of earlier inputs [(uid0, config0, k0)].  When
    the inputs [(uid, config, k)] of a call of [ensureClient] differ from
    them in the server URL, in the skip-verify flag, in the UID, in the
    bytes that encode the modulus or in the public exponent, the call
    constructs one client, stores it with the fingerprint of its own inputs
    in place of the old entry, and [GetClient] returns the new client,
    which is not the one stored before. *)
Theorem ensureClient_changed_field_rebuilds
    (w : world) (uid uid0 : string) (config0 config : cmacme.ACMEIssuer)
    (k0 k : rsa.PrivateKey) (meta : clientWithMeta) :
  clients w !! uid = Some meta ->
  allocated w (Interface meta) ->
  newStableOptions uid0 config0 (Some k0) = Some (options meta) ->
  cmacme.Server config0 <> cmacme.Server config
  \/ cmacme.SkipTLSVerify config0 <> cmacme.SkipTLSVerify config
  \/ uid0 <> uid
  \/ GobEncode (rsa.N (rsa.Public k0)) <> GobEncode (rsa.N (rsa.Public k))
  \/ rsa.E (rsa.Public k0) <> rsa.E (rsa.Public k) ->
  (forall c c2,
      equalTo c c2 = true
      <-> serverURL c = serverURL c2
          /\ skipVerifyTLS c = skipVerifyTLS c2
          /\ issuerUID c = issuerUID c2
          /\ publicKey c = publicKey c2
          /\ exponent c = exponent c2)
  /\ exists w' newOpts,
      newStableOptions uid config (Some k) = Some newOpts
      /\ equalTo (options meta) newOpts = false
      /\ ensureClient uid config (Some k) w = (Returns tt, w')
      /\ constructions w' = S (constructions w)
      /\ heap w' = heap w ++ [clientValue config (Some k)]
      /\ clients w'
         = <[uid := mkClientWithMeta (Some (constructions w)) newOpts]> (clients w)
      /\ GetClient uid w' = (Returns (Some (constructions w), None), w')
      /\ Interface meta <> Some (constructions w).
Proof.
  intros Hmeta (p & Hp & Hlt) HF0 Hdiff. split.
  - intros c c2. rewrite equalTo_true. split.
    + intros ->. tauto.
    + destruct c, c2; simpl. intros (-> & -> & -> & -> & ->). reflexivity.
  - destruct (newStableOptions uid config (Some k)) as [newOpts|] eqn:HF;
      [|discriminate].
    assert (options meta <> newOpts) as Hne.
    { intros Heq. rewrite Heq in HF0. rewrite <- HF in HF0.
      injection HF0 as Hs Hv Hu Hn He. apply string_of_list_byte_inj in Hn.
      tauto. }
    assert (upToDate uid newOpts w = false) as Hup.
    { unfold upToDate. rewrite Hmeta. apply equalTo_false, Hne. }
    exists (mkWorld
              (<[uid := mkClientWithMeta (Some (length (heap w))) newOpts]> (clients w))
              (heap w ++ [clientValue config (Some k)]) (snapshots w)), newOpts.
    split; [reflexivity|]. split; [apply equalTo_false, Hne|].
    split; [apply (ensureClient_miss _ _ _ newOpts); assumption|].
    unfold constructions. simpl. repeat split.
    + rewrite length_app. simpl. lia.
    + rewrite GetClient_lookup. simpl. rewrite lookup_insert_eq. reflexivity.
    + rewrite Hp. intros [= ->]. lia.
Qed.

End Replacement.

Lemma ensureClient_changed_field_rebuilds_witness :
  (exists w',
      ensureClient (H := sample.imports) "a" sample.insecure (Some sample.key)
        sample.registered = (Returns tt, w')
      /\ constructions w' = 2%nat
      /\ GetClient "a" w' = (Returns (Some 1%nat, None), w'))
  /\ (exists w',
        ensureClient (H := sample.imports) "a" sample.config (Some sample.otherKey)
          sample.registered = (Returns tt, w')
        /\ constructions w' = 2%nat
        /\ GetClient "a" w' = (Returns (Some 1%nat, None), w'))
  /\ (exists w',
        ensureClient (H := sample.imports) "a" sample.config (Some sample.keyE3)
          sample.registered = (Returns tt, w')
        /\ constructions w' = 2%nat
        /\ GetClient "a" w' = (Returns (Some 1%nat, None), w')).
Proof.
  assert (clients sample.registered !! "a"
          = Some (mkClientWithMeta (Some 0%nat)
                    (mkStableOptions "https://acme.example/directory" false "a"
                       (string_of_list_byte [x02; x0c; xa1]) 17))) as Hlook
    by (vm_compute; reflexivity).
  assert (allocated sample.registered (Some 0%nat)) as Halloc
    by (exists 0%nat; split; [reflexivity|vm_compute; lia]).
  split; [|split].
  - destruct (ensureClient_changed_field_rebuilds (H := sample.imports)
                sample.registered "a" "a" sample.config sample.insecure
                sample.key sample.key _ Hlook Halloc)
      as (_ & w' & newOpts & _ & _ & Hrun & Hn & _ & _ & Hget & _).
    + reflexivity.
    + right. left. simpl. discriminate.
    + exists w'. auto.
  - destruct (ensureClient_changed_field_rebuilds (H := sample.imports)
                sample.registered "a" "a" sample.config sample.config
                sample.key sample.otherKey _ Hlook Halloc)
      as (_ & w' & newOpts & _ & _ & Hrun & Hn & _ & _ & Hget & _).
    + reflexivity.
    + right. right. right. left. vm_compute. discriminate.
    + exists w'. auto.
  - destruct (ensureClient_changed_field_rebuilds (H := sample.imports)
                sample.registered "a" "a" sample.config sample.config
                sample.key sample.keyE3 _ Hlook Halloc)
      as (_ & w' & newOpts & _ & _ & Hrun & Hn & _ & _ & Hget & _).
    + reflexivity.
    + right. right. right. right. simpl. discriminate.
    + exists w'. auto.
Defined.

Section Invariant.
Context `{Imports}.

(** ** What each method does to the world *)

Lemma RemoveClient_absent uid w :
  clients w !! uid = None -> RemoveClient uid w = (Returns tt, w).
Proof.
  intros Hnone. unfold RemoveClient, mbind, M_bind, bind. simpl.
  rewrite Hnone. reflexivity.
Qed.

Lemma RemoveClient_present uid w meta :
  clients w !! uid = Some meta ->
  RemoveClient uid w = (Returns tt, set_clients (delete uid) w).
Proof.
  intros Hsome. unfold RemoveClient, mbind, M_bind, bind. simpl.
  rewrite Hsome. reflexivity.
Qed.

Lemma RemoveClient_after uid w :
  RemoveClient uid w = (Returns tt, after (RemoveClient uid) w)
  /\ clients (after (RemoveClient uid) w) = delete uid (clients w)
  /\ heap (after (RemoveClient uid) w) = heap w
  /\ snapshots (after (RemoveClient uid) w) = snapshots w.
Proof.
  unfold after. destruct (clients w !! uid) as [meta|] eqn:Hlook.
  - rewrite (RemoveClient_present _ _ _ Hlook). simpl. auto.
  - rewrite (RemoveClient_absent _ _ Hlook). simpl.
    rewrite delete_id by exact Hlook. auto.
Qed.

Lemma ListClients_world w :
  ListClients w
  = (Returns (length (snapshots w)),
     mkWorld (clients w) (heap w) (snapshots w ++ [Interface <$> clients w])).
Proof.
  unfold ListClients. f_equal.
  apply (map_fold_weak_ind
           (fun r m => r = mkWorld (clients w) (heap w)
                             (snapshots w ++ [Interface <$> m]))).
  - unfold set_snapshots. rewrite fmap_empty. reflexivity.
  - intros k v m r _ ->. unfold mapAssign, set_snapshots. simpl. f_equal.
    rewrite <- (Nat.add_0_r (length (snapshots w))).
    rewrite alter_app_r. simpl. rewrite fmap_insert. reflexivity.
Qed.

(** ** The invariant *)

Lemma entry_ok_heap_app w w' uid meta extra :
  heap w' = heap w ++ extra -> entry_ok w uid meta -> entry_ok w' uid meta.
Proof.
  intros Hheap (p & config & privateKey & Hi & Hp & HF).
  exists p, config, privateKey. repeat split; try assumption.
  rewrite Hheap. apply lookup_app_l_Some, Hp.
Qed.

Lemma registry_inv_empty : registry_inv NewDefaultRegistry.
Proof. intros uid meta Hlook. simpl in Hlook. rewrite lookup_empty in Hlook. discriminate. Qed.

Lemma registry_inv_ensureClient uid config privateKey w :
  registry_inv w -> registry_inv (after (ensureClient uid config privateKey) w).
Proof.
  intros Hinv. unfold after.
  destruct (newStableOptions uid config privateKey) as [newOpts|] eqn:HF.
  - destruct (upToDate uid newOpts w) eqn:Hup.
    + rewrite (ensureClient_hit _ _ _ _ _ HF Hup). exact Hinv.
    + rewrite (ensureClient_miss _ _ _ _ _ HF Hup). simpl.
      intros uid' meta. simpl. rewrite lookup_insert.
      destruct (decide (uid = uid')) as [<-|Hne].
      * intros [= <-]. exists (length (heap w)), config, privateKey. simpl.
        repeat split; [|exact HF]. apply list_lookup_middle. reflexivity.
      * intros Hlook. eapply entry_ok_heap_app; [|apply (Hinv _ _ Hlook)].
        reflexivity.
  - rewrite (ensureClient_panics _ _ _ _ HF). exact Hinv.
Qed.

Lemma registry_inv_exec c w : registry_inv w -> registry_inv (exec c w).
Proof.
  intros Hinv. destruct c as [uid config privateKey|uid|uid|]; simpl.
  - apply registry_inv_ensureClient, Hinv.
  - destruct (RemoveClient_after uid w) as (_ & Hc & Hh & _).
    intros uid' meta. rewrite Hc. intros Hlook.
    apply lookup_delete_Some in Hlook as [_ Hlook].
    eapply (entry_ok_heap_app w _ _ _ []); [|apply (Hinv _ _ Hlook)].
    rewrite Hh, app_nil_r. reflexivity.
  - unfold after. rewrite GetClient_lookup. exact Hinv.
  - unfold after. rewrite ListClients_world. exact Hinv.
Qed.

Lemma registry_inv_run cs w : registry_inv w -> registry_inv (run cs w).
Proof.
  revert w. induction cs as [|c cs IH]; intros w Hinv; simpl.
  - exact Hinv.
  - apply IH, registry_inv_exec, Hinv.
Qed.

(** C4. In every world that a sequence of calls of [AddClient],
    [RemoveClient], [GetClient] and [ListClients] reaches from the empty
    registry, no UID has two entries, and every entry holds the address of a
    client that [NewClient] built from a configuration and a key whose
    fingerprint, taken with the entry's UID, is the stored one. *)
Theorem registry_invariant (cs : list call) :
  NoDup (map_to_list (clients (run cs NewDefaultRegistry))).*1
  /\ forall uid meta,
      clients (run cs NewDefaultRegistry) !! uid = Some meta ->
      exists p config privateKey,
        Interface meta = Some p
        /\ heap (run cs NewDefaultRegistry) !! p = Some (clientValue config privateKey)
        /\ newStableOptions uid config privateKey = Some (options meta).
Proof.
  split.
  - apply NoDup_fst_map_to_list.
  - apply (registry_inv_run cs NewDefaultRegistry registry_inv_empty).
Qed.

End Invariant.

Section Lookup.
Context `{Imports}.

Lemma clientValue_same_fields config config' privateKey :
  cmacme.Server config = cmacme.Server config' ->
  cmacme.SkipTLSVerify config = cmacme.SkipTLSVerify config' ->
  clientValue config privateKey = clientValue config' privateKey.
Proof. intros Hs Hv. unfold clientValue. rewrite Hs, Hv. reflexivity. Qed.

Lemma newStableOptions_config uid config config' privateKey privateKey' newOpts :
  newStableOptions uid config privateKey = Some newOpts ->
  newStableOptions uid config' privateKey' = Some newOpts ->
  cmacme.Server config = cmacme.Server config'
  /\ cmacme.SkipTLSVerify config = cmacme.SkipTLSVerify config'
  /\ newStableOptions uid config privateKey' = Some newOpts.
Proof.
  unfold newStableOptions.
  destruct privateKey as [k|], privateKey' as [k'|]; try discriminate.
  intros [= <-] [= Hs Hv Hn He]. rewrite Hs, Hv, Hn, He. auto.
Qed.

(** C3, as the code has it.  After [ensureClient uid config privateKey]
    returns on a registry reached from the empty one, [GetClient uid]
    returns, with a nil error, the address of a client built by [NewClient]
    from [config] and a key with the fingerprint of [privateKey]; the key is
    [privateKey] itself when the call did not find that fingerprint
    stored. *)
Theorem GetClient_after_ensureClient
    (cs : list call) (uid : string) (config : cmacme.ACMEIssuer)
    (privateKey : option rsa.PrivateKey) (w' : world) :
  ensureClient uid config privateKey (run cs NewDefaultRegistry) = (Returns tt, w') ->
  exists p privateKey',
    GetClient uid w' = (Returns (Some p, None), w')
    /\ heap w' !! p = Some (clientValue config privateKey')
    /\ newStableOptions uid config privateKey'
       = newStableOptions uid config privateKey
    /\ ((forall meta, clients (run cs NewDefaultRegistry) !! uid = Some meta ->
           Some (options meta) <> newStableOptions uid config privateKey) ->
        privateKey' = privateKey).
Proof.
  set (w := run cs NewDefaultRegistry). intros Hrun.
  assert (registry_inv w) as Hinv by apply registry_inv_run, registry_inv_empty.
  destruct (newStableOptions uid config privateKey) as [newOpts|] eqn:HF.
  2: { rewrite (ensureClient_panics _ _ _ _ HF) in Hrun. discriminate. }
  destruct (upToDate uid newOpts w) eqn:Hup.
  - rewrite (ensureClient_hit _ _ _ _ _ HF Hup) in Hrun. injection Hrun as <-.
    pose proof Hup as (meta & Hlook & Hopts)%upToDate_true.
    destruct (Hinv _ _ Hlook) as (p & config' & privateKey' & Hi & Hp & HF').
    rewrite Hopts in HF'.
    destruct (newStableOptions_config _ _ _ _ _ _ HF HF') as (Hs & Hv & HF'').
    exists p, privateKey'. rewrite GetClient_lookup, Hlook, Hi.
    repeat split.
    + rewrite Hp. f_equal. symmetry. apply clientValue_same_fields; assumption.
    + exact HF''.
    + intros Hnew. destruct (Hnew meta eq_refl). congruence.
  - rewrite (ensureClient_miss _ _ _ _ _ HF Hup) in Hrun. injection Hrun as <-.
    exists (length (heap w)), privateKey. rewrite GetClient_lookup. simpl.
    rewrite lookup_insert_eq. simpl. repeat split.
    + apply list_lookup_middle. reflexivity.
    + exact HF.
Qed.

End Lookup.

Lemma GetClient_after_ensureClient_witness :
  exists p privateKey',
    GetClient "a" sample.registered
    = (Returns (Some p, None), sample.registered)
    /\ heap sample.registered !! p
       = Some (clientValue (H := sample.imports) sample.config privateKey').
Proof.
  destruct (GetClient_after_ensureClient (H := sample.imports) []
              "a" sample.config (Some sample.key) sample.registered)
    as (p & privateKey' & Hget & Hheap & _).
  - reflexivity.
  - exists p, privateKey'. split; assumption.
Defined.

(** C3 fails for a key that shares its public part with the key of the
    stored client: the call returns on the fast path and the stored client,
    built from the other key, stays. *)
Lemma returns_client_of_inputs_counterexample :
  sample.registered
  = run (H := sample.imports)
      [CallAddClient "a" sample.config (Some sample.key)] NewDefaultRegistry
  /\ ~ returns_client_of_inputs (H := sample.imports)
         sample.registered "a" sample.config (Some sample.key').
Proof.
  split; [reflexivity|]. intros Hclaim.
  destruct (Hclaim sample.registered) as (p & Hget & Hheap); [reflexivity|].
  rewrite GetClient_lookup in Hget. vm_compute in Hget.
  injection Hget as <-. vm_compute in Hheap. discriminate.
Qed.

Section Errors.
Context `{Imports}.

Lemma exec_never_added c w uid :
  uid ∉ added [c] -> clients w !! uid = None -> clients (exec c w) !! uid = None.
Proof.
  intros Hadd Hnone. destruct c as [uid' config privateKey|uid'|uid'|]; simpl.
  - assert (uid' <> uid) as Hne.
    { intros ->. apply Hadd. simpl. apply list_elem_of_here. }
    unfold AddClient, after.
    destruct (newStableOptions uid' config privateKey) as [newOpts|] eqn:HF.
    + destruct (upToDate uid' newOpts w) eqn:Hup.
      * rewrite (ensureClient_hit _ _ _ _ _ HF Hup). exact Hnone.
      * rewrite (ensureClient_miss _ _ _ _ _ HF Hup). simpl.
        rewrite lookup_insert_ne by exact Hne. exact Hnone.
    + rewrite (ensureClient_panics _ _ _ _ HF). exact Hnone.
  - destruct (RemoveClient_after uid' w) as (_ & Hc & _). rewrite Hc.
    apply lookup_delete_None. right. exact Hnone.
  - unfold after. rewrite GetClient_lookup. exact Hnone.
  - unfold after. rewrite ListClients_world. exact Hnone.
Qed.

Lemma run_never_added cs w uid :
  uid ∉ added cs -> clients w !! uid = None -> clients (run cs w) !! uid = None.
Proof.
  revert w. induction cs as [|c cs IH]; intros w Hadd Hnone; simpl; [exact Hnone|].
  assert ((uid ∉ added [c]) /\ (uid ∉ added cs)) as [Hc Hcs].
  { unfold added in *. simpl in *. destruct c; simpl in *;
      rewrite ?not_elem_of_cons in Hadd; rewrite ?not_elem_of_cons;
      repeat split; try tauto; apply not_elem_of_nil. }
  apply IH; [exact Hcs|]. apply exec_never_added; [exact Hc|exact Hnone].
Qed.

(** C5. [GetClient uid] returns [ErrNotFound] exactly when [uid] has no
    entry, and otherwise returns the stored client with a nil error; it
    neither panics nor changes the world.  A UID that no call has passed to
    [AddClient] has no entry. *)
Theorem GetClient_ErrNotFound_iff (w : world) (uid : string) :
  (GetClient uid w = (Returns (None, Some ErrNotFound), w)
   <-> clients w !! uid = None)
  /\ (forall meta,
        clients w !! uid = Some meta ->
        GetClient uid w = (Returns (Interface meta, None), w))
  /\ (forall cs,
        uid ∉ added cs ->
        GetClient uid (run cs NewDefaultRegistry)
        = (Returns (None, Some ErrNotFound), run cs NewDefaultRegistry)).
Proof.
  repeat split.
  - rewrite GetClient_lookup. destruct (clients w !! uid); [discriminate|reflexivity].
  - intros Hnone. rewrite GetClient_lookup, Hnone. reflexivity.
  - intros meta Hlook. rewrite GetClient_lookup, Hlook. reflexivity.
  - intros cs Hadd. rewrite GetClient_lookup.
    rewrite (run_never_added cs NewDefaultRegistry uid Hadd); [reflexivity|].
    apply lookup_empty.
Qed.

(** C6. A call of [AddClient] fails exactly when the fingerprint cannot be
    computed; the caller then sees the panic, and the world, with it the
    entry of the UID if there was one, is as it was before the call.
    [NewClient] itself always returns. *)
Theorem AddClient_failure_keeps_registry
    (w w' : world) (uid : string) (config : cmacme.ACMEIssuer)
    (privateKey : option rsa.PrivateKey) (o : outcome unit) :
  AddClient uid config privateKey w = (o, w') ->
  newStableOptions uid config privateKey = None \/ o = Panics ->
  o = Panics
  /\ w' = w
  /\ newStableOptions uid config privateKey = None
  /\ exists c, fst (NewClient config privateKey w) = Returns c.
Proof.
  unfold AddClient. intros Hrun Hfail.
  destruct (newStableOptions uid config privateKey) as [newOpts|] eqn:HF.
  - destruct Hfail as [? | ->]; [discriminate|].
    rewrite (ensureClient_returns _ _ _ _ _ HF) in Hrun. discriminate.
  - rewrite (ensureClient_panics _ _ _ _ HF) in Hrun. injection Hrun as <- <-.
    repeat split. eexists. reflexivity.
Qed.

(** C7. [RemoveClient uid] returns without a panic; it leaves the world
    alone when [uid] has no entry; after it [GetClient uid] returns
    [ErrNotFound], and a second [RemoveClient uid] changes nothing. *)
Theorem RemoveClient_idempotent (w : world) (uid : string) :
  (clients w !! uid = None -> RemoveClient uid w = (Returns tt, w))
  /\ exists w',
      RemoveClient uid w = (Returns tt, w')
      /\ GetClient uid w' = (Returns (None, Some ErrNotFound), w')
      /\ RemoveClient uid w' = (Returns tt, w').
Proof.
  split; [apply RemoveClient_absent|].
  destruct (RemoveClient_after uid w) as (Hrun & Hc & _).
  exists (after (RemoveClient uid) w).
  assert (clients (after (RemoveClient uid) w) !! uid = None) as Hnone.
  { rewrite Hc. apply lookup_delete_eq. }
  repeat split.
  - exact Hrun.
  - rewrite GetClient_lookup, Hnone. reflexivity.
  - apply RemoveClient_absent, Hnone.
Qed.

End Errors.

Lemma AddClient_failure_keeps_registry_witness :
  sample.registered = sample.registered
  /\ newStableOptions (H := sample.imports) "a" sample.staging None = None.
Proof.
  destruct (AddClient_failure_keeps_registry (H := sample.imports)
              sample.registered sample.registered "a" sample.staging None Panics)
    as (_ & Hworld & HF & _).
  - reflexivity.
  - left. reflexivity.
  - split; [exact Hworld|exact HF].
Defined.

Section Snapshots.
Context `{Imports}.

Lemma exec_snapshots c w :
  exists extra, snapshots (exec c w) = snapshots w ++ extra.
Proof.
  destruct c as [uid config privateKey|uid|uid|]; simpl.
  - exists []. rewrite app_nil_r. unfold AddClient, after.
    destruct (newStableOptions uid config privateKey) as [newOpts|] eqn:HF.
    + destruct (upToDate uid newOpts w) eqn:Hup.
      * rewrite (ensureClient_hit _ _ _ _ _ HF Hup). reflexivity.
      * rewrite (ensureClient_miss _ _ _ _ _ HF Hup). reflexivity.
    + rewrite (ensureClient_panics _ _ _ _ HF). reflexivity.
  - exists []. rewrite app_nil_r. apply RemoveClient_after.
  - exists []. rewrite app_nil_r. unfold after. rewrite GetClient_lookup. reflexivity.
  - eexists. unfold after. rewrite ListClients_world. reflexivity.
Qed.

Lemma run_snapshots cs w :
  exists extra, snapshots (run cs w) = snapshots w ++ extra.
Proof.
  revert w. induction cs as [|c cs IH]; intros w; simpl.
  - exists []. rewrite app_nil_r. reflexivity.
  - destruct (IH (exec c w)) as [extra ->].
    destruct (exec_snapshots c w) as [extra' ->].
    exists (extra' ++ extra). rewrite app_assoc. reflexivity.
Qed.

(** C8. [ListClients] returns the address of a map that did not exist
    before, holding for every UID the client of its entry and nothing
    else; the registry itself is unchanged.  Assigning to or deleting from
    the returned map changes that map and neither the registry nor what
    [GetClient] returns; and no later call on the registry changes the
    returned map. *)
Theorem ListClients_fresh_copy (w : world) :
  exists out w' m,
    ListClients w = (Returns out, w')
    /\ snapshots w !! out = None
    /\ snapshots w' !! out = Some m
    /\ (forall uid, m !! uid = Interface <$> clients w !! uid)
    /\ clients w' = clients w
    /\ heap w' = heap w
    /\ (forall k v,
          snapshots (mapAssign out k v w') !! out = Some (<[k := v]> m)
          /\ clients (mapAssign out k v w') = clients w'
          /\ forall uid,
              fst (GetClient uid (mapAssign out k v w')) = fst (GetClient uid w'))
    /\ (forall k,
          snapshots (mapDelete out k w') !! out = Some (delete k m)
          /\ clients (mapDelete out k w') = clients w'
          /\ forall uid,
              fst (GetClient uid (mapDelete out k w')) = fst (GetClient uid w'))
    /\ (forall cs, snapshots (run cs w') !! out = Some m).
Proof.
  exists (length (snapshots w)),
    (mkWorld (clients w) (heap w) (snapshots w ++ [Interface <$> clients w])),
    (Interface <$> clients w).
  repeat split; simpl.
  - apply ListClients_world.
  - apply lookup_ge_None. lia.
  - apply list_lookup_middle. reflexivity.
  - intros uid. apply lookup_fmap.
  - rewrite list_lookup_alter_eq, list_lookup_middle by reflexivity. reflexivity.
  - intros uid. rewrite !GetClient_lookup. reflexivity.
  - rewrite list_lookup_alter_eq, list_lookup_middle by reflexivity. reflexivity.
  - intros uid. rewrite !GetClient_lookup. reflexivity.
  - intros cs.
    destruct (run_snapshots cs
                (mkWorld (clients w) (heap w)
                   (snapshots w ++ [Interface <$> clients w]))) as [extra ->].
    simpl. rewrite <- app_assoc. apply list_lookup_middle. reflexivity.
Qed.

Lemma AddClient_reachable (cs : list call) (uid : string)
    (config : cmacme.ACMEIssuer) (k : rsa.PrivateKey) :
  exists newOpts w' p privateKey',
    newStableOptions uid config (Some k) = Some newOpts
    /\ AddClient uid config (Some k) (run cs NewDefaultRegistry) = (Returns tt, w')
    /\ clients w' !! uid = Some (mkClientWithMeta (Some p) newOpts)
    /\ GetClient uid w' = (Returns (Some p, None), w')
    /\ heap w' !! p = Some (clientValue config privateKey')
    /\ newStableOptions uid config privateKey' = Some newOpts
    /\ (upToDate uid newOpts (run cs NewDefaultRegistry) = true ->
        w' = run cs NewDefaultRegistry)
    /\ (upToDate uid newOpts (run cs NewDefaultRegistry) = false ->
        p = constructions (run cs NewDefaultRegistry)
        /\ privateKey' = Some k
        /\ constructions w' = S (constructions (run cs NewDefaultRegistry))
        /\ clients w'
           = <[uid := mkClientWithMeta (Some p) newOpts]>
               (clients (run cs NewDefaultRegistry))).
Proof.
  set (w := run cs NewDefaultRegistry).
  assert (registry_inv w) as Hinv by apply registry_inv_run, registry_inv_empty.
  destruct (newStableOptions uid config (Some k)) as [newOpts|] eqn:HF;
    [|discriminate].
  unfold AddClient. destruct (upToDate uid newOpts w) eqn:Hup.
  - pose proof Hup as (meta & Hlook & Hopts)%upToDate_true.
    destruct (Hinv _ _ Hlook) as (p & config' & privateKey' & Hi & Hp & HF').
    rewrite Hopts in HF'.
    destruct (newStableOptions_config _ _ _ _ _ _ HF HF') as (Hs & Hv & HF'').
    exists newOpts, w, p, privateKey'.
    split; [reflexivity|]. split; [apply (ensureClient_hit _ _ _ newOpts); assumption|].
    split; [rewrite Hlook; destruct meta; simpl in *; congruence|].
    split; [rewrite GetClient_lookup, Hlook, Hi; reflexivity|].
    split.
    { rewrite Hp. f_equal. symmetry. apply clientValue_same_fields; assumption. }
    split; [exact HF''|]. split; [intros _; reflexivity|intros Hf; congruence].
  - exists newOpts,
      (mkWorld (<[uid := mkClientWithMeta (Some (length (heap w))) newOpts]> (clients w))
               (heap w ++ [clientValue config (Some k)]) (snapshots w)),
      (length (heap w)), (Some k).
    split; [reflexivity|]. split; [apply (ensureClient_miss _ _ _ newOpts); assumption|].
    simpl. split; [apply lookup_insert_eq|].
    split; [rewrite GetClient_lookup; simpl; rewrite lookup_insert_eq; reflexivity|].
    split; [apply list_lookup_middle; reflexivity|].
    split; [exact HF|]. split; [intros Ht; congruence|]. intros _.
    unfold constructions. simpl. rewrite length_app. simpl.
    repeat split. lia.
Qed.

(** C10. [AddClient] does not look at the UID, so the empty UID is
    registered like any other.  On a registry reached from the empty one,
    with a key that is not nil, [AddClient] of the empty UID returns; the
    registry then has an entry under the empty UID with the fingerprint of
    the inputs; and [GetClient] of the empty UID returns, with a nil error,
    the client of that entry.  When the empty UID had no entry or an entry
    with another fingerprint, that client is a new one, built by this call
    from its inputs, and it replaces what was stored; when it had the
    fingerprint already, the registry is unchanged and the client is the
    one built before from inputs with that fingerprint. *)
Theorem AddClient_empty_uid
    (cs : list call) (config : cmacme.ACMEIssuer) (k : rsa.PrivateKey) :
  exists newOpts w' p privateKey',
    newStableOptions "" config (Some k) = Some newOpts
    /\ AddClient "" config (Some k) (run cs NewDefaultRegistry) = (Returns tt, w')
    /\ clients w' !! "" = Some (mkClientWithMeta (Some p) newOpts)
    /\ GetClient "" w' = (Returns (Some p, None), w')
    /\ heap w' !! p = Some (clientValue config privateKey')
    /\ newStableOptions "" config privateKey' = Some newOpts
    /\ (upToDate "" newOpts (run cs NewDefaultRegistry) = true ->
        w' = run cs NewDefaultRegistry)
    /\ (upToDate "" newOpts (run cs NewDefaultRegistry) = false ->
        p = constructions (run cs NewDefaultRegistry)
        /\ privateKey' = Some k
        /\ constructions w' = S (constructions (run cs NewDefaultRegistry))
        /\ clients w'
           = <["" := mkClientWithMeta (Some p) newOpts]>
               (clients (run cs NewDefaultRegistry))).
Proof. apply (AddClient_reachable cs "" config k). Qed.

End Snapshots.

(** ** Goroutines under the registry's lock *)

Lemma lookup_insert_pc (l : list pc) (i j : nat) (p q : pc) :
  <[i := p]> l !! j = Some q ->
  (j = i /\ q = p) \/ (j <> i /\ l !! j = Some q).
Proof.
  intros Hj. destruct (decide (j = i)) as [->|Hne].
  - left. split; [reflexivity|].
    pose proof (lookup_lt_Some _ _ _ Hj) as Hlt. rewrite length_insert in Hlt.
    rewrite list_lookup_insert_eq in Hj by exact Hlt. congruence.
  - right. split; [exact Hne|].
    rewrite list_lookup_insert_ne in Hj by congruence. exact Hj.
Qed.

Lemma sum_remaining_insert (l : list pc) (i : nat) (p p' : pc) :
  l !! i = Some p ->
  (remaining p' < remaining p)%nat ->
  (sum_list (remaining <$> <[i := p']> l) < sum_list (remaining <$> l))%nat.
Proof.
  revert i. induction l as [|q l IH]; intros [|i] Hi Hlt; simpl in *;
    try discriminate.
  - injection Hi as ->. lia.
  - specialize (IH i Hi Hlt). unfold fmap in IH. lia.
Qed.

Lemma outside_all_or_waiting (l : list pc) :
  (forall j q, l !! j = Some q -> outside q) ->
  Forall (fun p => p = Returned) l \/ exists j, l !! j = Some AtLock.
Proof.
  induction l as [|q l IH]; intros Hout.
  - left. constructor.
  - destruct (Hout 0%nat q eq_refl) as [-> | ->].
    + right. exists 0%nat. reflexivity.
    + destruct IH as [Hall|[j Hj]].
      * intros j q Hj. apply (Hout (S j) q Hj).
      * left. constructor; [reflexivity|exact Hall].
      * right. exists (S j). exact Hj.
Qed.

Section Concurrency.
Context `{Imports}.
Variables (uid : string) (config : cmacme.ACMEIssuer)
  (privateKey : option rsa.PrivateKey) (w0 : world) (newOpts0 : stableOptions).
Hypothesis HF : newStableOptions uid config privateKey = Some newOpts0.

#[local] Abbreviation step' := (step uid config privateKey).
#[local] Abbreviation w1' := (w1 uid config privateKey w0).
#[local] Abbreviation exclusive' := (exclusive uid config privateKey w0 newOpts0).
#[local] Abbreviation inside' := (inside uid config privateKey w0 newOpts0).

Lemma w1_hit : upToDate uid newOpts0 w0 = true -> w1' = w0.
Proof. intros Hup. unfold w1, after. rewrite (ensureClient_hit _ _ _ _ _ HF Hup). reflexivity. Qed.

Lemma w1_world :
  upToDate uid newOpts0 w0 = false ->
  w1'
  = mkWorld (<[uid := mkClientWithMeta (Some (length (heap w0))) newOpts0]> (clients w0))
            (heap w0 ++ [clientValue config privateKey])
            (snapshots w0).
Proof.
  intros Hmiss. unfold w1, after.
  rewrite (ensureClient_miss _ _ _ _ _ HF Hmiss). reflexivity.
Qed.

Lemma w1_constructions :
  constructions w1'
  = if upToDate uid newOpts0 w0 then constructions w0 else S (constructions w0).
Proof.
  destruct (upToDate uid newOpts0 w0) eqn:Hup.
  - rewrite (w1_hit Hup). reflexivity.
  - rewrite (w1_world Hup). unfold constructions. simpl.
    rewrite length_app. simpl. lia.
Qed.

Lemma upToDate_w1 : upToDate uid newOpts0 w1' = true.
Proof. apply upToDate_after_miss, HF. Qed.

Lemma goroutine_step_remaining w l p w' l' p' :
  goroutine_step uid config privateKey w l p = Some (w', l', p') ->
  (remaining p' < remaining p)%nat.
Proof.
  destruct p as [| |newOpts|newOpts|newOpts c|panicking| |]; simpl.
  - destruct l; [discriminate|]. intros [= <- <- <-]. simpl. lia.
  - destruct (newStableOptions uid config privateKey);
      intros [= <- <- <-]; simpl; lia.
  - destruct (match clients w !! uid with Some _ => _ | None => _ end);
      intros [= <- <- <-]; simpl; lia.
  - intros [= <- <- <-]. simpl. lia.
  - intros [= <- <- <-]. simpl. lia.
  - intros [= <- <- <-]. destruct panicking; simpl; lia.
  - discriminate.
  - discriminate.
Qed.

Lemma fire_step i s :
  fire uid config privateKey i s = s \/ step' s (fire uid config privateKey i s).
Proof.
  unfold fire. destruct (goroutines s !! i) as [p|] eqn:Hi; [|left; reflexivity].
  destruct (goroutine_step uid config privateKey (shared s) (locked s) p)
    as [[[w' l'] p']|] eqn:Hstep; [|left; reflexivity].
  right. apply (step_goroutine _ _ _ s i p w' l' p' Hi Hstep).
Qed.

Lemma schedule_steps order s :
  rtc step' s (schedule uid config privateKey order s).
Proof.
  revert s. induction order as [|i order IH]; intros s; simpl; [apply rtc_refl|].
  destruct (fire_step i s) as [Heq|Hstep].
  - rewrite Heq. apply IH.
  - apply (rtc_l _ _ _ _ Hstep), IH.
Qed.

Lemma step_work s s' : step' s s' -> (work s' < work s)%nat.
Proof.
  intros [s0 i p w' l' p' Hi Hstep]. unfold work. simpl.
  apply (sum_remaining_insert _ _ p); [exact Hi|].
  apply (goroutine_step_remaining _ _ _ _ _ _ Hstep).
Qed.

Lemma step_length s s' :
  step' s s' -> length (goroutines s') = length (goroutines s).
Proof. intros [s0 i p w' l' p' _ _]. simpl. apply length_insert. Qed.

Lemma exclusive_start n : exclusive' (start n w0).
Proof.
  unfold exclusive, start. simpl. split.
  - intros j q [-> _]%lookup_replicate. left. reflexivity.
  - right. split; [reflexivity|]. intros j q [-> _]%lookup_replicate. reflexivity.
Qed.

Lemma inside_step_exclusive s i p w' l' p' :
  goroutines s !! i = Some p ->
  inside' p (shared s) ->
  (forall j q, j <> i -> goroutines s !! j = Some q -> outside q) ->
  goroutine_step uid config privateKey (shared s) true p = Some (w', l', p') ->
  exclusive' (mkSystem w' l' (<[i := p']> (goroutines s))).
Proof.
  intros Hi Hin Hout Hstep.
  pose proof (lookup_lt_Some _ _ _ Hi) as Hlt.
  assert (forall w'' q', inside' q' w'' ->
            exclusive' (mkSystem w'' true (<[i := q']> (goroutines s)))) as Hkeep.
  { intros w'' q' Hin'. unfold exclusive. simpl. exists i, q'. repeat split.
    - apply list_lookup_insert_eq, Hlt.
    - exact Hin'.
    - intros j q Hne Hj. rewrite list_lookup_insert_ne in Hj by congruence.
      apply (Hout j q Hne Hj). }
  destruct p as [| |newOpts|newOpts|newOpts c|panicking| |]; simpl in Hin, Hstep;
    try contradiction.
  - rewrite HF in Hstep. injection Hstep as <- <- <-. apply Hkeep. simpl. auto.
  - destruct Hin as [-> Hw]. fold (upToDate uid newOpts0 (shared s)) in Hstep.
    destruct Hw as [Hw|Hw]; rewrite Hw in Hstep.
    + destruct (upToDate uid newOpts0 w0) eqn:Hup; injection Hstep as <- <- <-;
        apply Hkeep; simpl; [|auto].
      split; [reflexivity|]. symmetry. apply w1_hit, Hup.
    + rewrite upToDate_w1 in Hstep. injection Hstep as <- <- <-.
      apply Hkeep. simpl. auto.
  - destruct Hin as (-> & Hw & Hup). injection Hstep as <- <- <-. apply Hkeep. simpl.
    rewrite Hw. auto.
  - destruct Hin as (-> & -> & Hw & Hup). injection Hstep as <- <- <-.
    apply Hkeep. simpl.
    split; [reflexivity|]. rewrite Hw, (w1_world Hup). reflexivity.
  - destruct Hin as [-> Hw]. injection Hstep as <- <- <-.
    unfold exclusive. simpl. split; [|left; exact Hw].
    intros j q [[-> ->]|[Hne Hj]]%lookup_insert_pc.
    + right. reflexivity.
    + apply (Hout j q Hne Hj).
Qed.

Lemma exclusive_step s s' : exclusive' s -> step' s s' -> exclusive' s'.
Proof.
  intros Hex Hstep. destruct Hstep as [s0 i p w' l' p' Hi Hstep].
  unfold exclusive in Hex. destruct (locked s0) eqn:Hl.
  - destruct Hex as (i0 & p0 & Hi0 & Hin & Hout).
    destruct (decide (i = i0)) as [->|Hne].
    + rewrite Hi in Hi0. injection Hi0 as <-.
      apply (inside_step_exclusive s0 i0 p); assumption.
    + destruct (Hout i p Hne Hi) as [-> | ->]; simpl in Hstep;
        rewrite ?Hl in Hstep; discriminate.
  - destruct Hex as [Hout Hw].
    destruct (Hout i p Hi) as [-> | ->]; simpl in Hstep; [|discriminate].
    injection Hstep as <- <- <-.
    unfold exclusive. simpl. exists i, AtNewStableOptions.
    pose proof (lookup_lt_Some _ _ _ Hi) as Hlt. repeat split.
    + apply list_lookup_insert_eq, Hlt.
    + simpl. destruct Hw as [Hw|[Hw _]]; auto.
    + intros j q Hne Hj. rewrite list_lookup_insert_ne in Hj by congruence.
      apply (Hout j q Hj).
Qed.

Lemma inside_can_step w l p :
  inside' p w -> exists r, goroutine_step uid config privateKey w l p = Some r.
Proof.
  destruct p as [| |newOpts|newOpts|newOpts c|panicking| |]; simpl;
    try contradiction; intros _.
  - rewrite HF. eauto.
  - destruct (match clients w !! uid with Some _ => _ | None => _ end); eauto.
  - eauto.
  - eauto.
  - eauto.
Qed.

Lemma exclusive_progress s :
  exclusive' s -> (exists s', step' s s') \/ all_returned s.
Proof.
  unfold exclusive. destruct (locked s) eqn:Hl.
  - intros (i & p & Hi & Hin & _). left.
    destruct (inside_can_step (shared s) (locked s) p Hin) as [[[w' l'] p'] Hstep].
    eexists. apply (step_goroutine _ _ _ s i p w' l' p' Hi Hstep).
  - intros [Hout _]. destruct (outside_all_or_waiting _ Hout) as [Hall|[j Hj]].
    + right. exact Hall.
    + left. eexists. eapply step_goroutine; [exact Hj|].
      simpl. rewrite Hl. reflexivity.
Qed.

Lemma exclusive_constructions s :
  exclusive' s -> (constructions (shared s) <= S (constructions w0))%nat.
Proof.
  assert (constructions w1' <= S (constructions w0))%nat as H1.
  { rewrite w1_constructions. destruct (upToDate uid newOpts0 w0); lia. }
  unfold exclusive. destruct (locked s).
  - intros (i & p & _ & Hin & _).
    destruct p as [| |newOpts|newOpts|newOpts c|panicking| |]; simpl in Hin;
      try contradiction.
    + destruct Hin as [-> | ->]; lia.
    + destruct Hin as [_ [-> | ->]]; lia.
    + destruct Hin as (_ & -> & _). lia.
    + destruct Hin as (_ & _ & -> & _). unfold constructions. simpl.
      rewrite length_app. simpl. lia.
    + destruct Hin as [_ ->]. lia.
  - intros [_ [-> |[-> _]]]; lia.
Qed.

Lemma exclusive_all_returned s :
  exclusive' s -> goroutines s <> [] -> all_returned s ->
  locked s = false /\ shared s = w1'.
Proof.
  unfold exclusive, all_returned. intros Hex Hne Hall.
  destruct (locked s).
  - destruct Hex as (i & p & Hi & Hin & _).
    rewrite Forall_lookup in Hall. rewrite (Hall i p Hi) in Hin. destruct Hin.
  - split; [reflexivity|]. destruct Hex as [_ [Hw|[_ Hlock]]]; [exact Hw|].
    destruct (goroutines s) as [|q l]; [congruence|].
    pose proof (Hlock 0%nat q eq_refl) as ->.
    apply Forall_cons in Hall as [Hq _]. discriminate.
Qed.

Lemma exclusive_one_holder s i j p q :
  exclusive' s ->
  goroutines s !! i = Some p -> holds_lock p = true ->
  goroutines s !! j = Some q -> holds_lock q = true ->
  locked s = true /\ i = j.
Proof.
  assert (forall r, outside r -> holds_lock r = true -> False) as Hout.
  { intros r [-> | ->]; discriminate. }
  unfold exclusive. destruct (locked s).
  - intros (i0 & p0 & _ & _ & Hothers) Hi Hp Hj Hq. split; [reflexivity|].
    destruct (decide (i = i0)) as [->|Hne].
    + destruct (decide (j = i0)) as [->|Hne]; [reflexivity|].
      destruct (Hout q (Hothers j q Hne Hj) Hq).
    + destruct (Hout p (Hothers i p Hne Hi) Hp).
  - intros [Hall _] Hi Hp _ _. destruct (Hout p (Hall i p Hi) Hp).
Qed.

Lemma nsteps_exclusive k s s' :
  nsteps step' k s s' -> exclusive' s ->
  exclusive' s'
  /\ (k + work s' <= work s)%nat
  /\ length (goroutines s') = length (goroutines s).
Proof.
  induction 1 as [s|k s s' s'' Hstep _ IH]; intros Hex.
  - repeat split; [exact Hex|lia].
  - destruct (IH (exclusive_step _ _ Hex Hstep)) as (Hex' & Hwork & Hlen).
    pose proof (step_work _ _ Hstep). pose proof (step_length _ _ Hstep).
    repeat split; [exact Hex'|lia|congruence].
Qed.

Lemma exclusive_finishes m s :
  (work s <= m)%nat -> exclusive' s ->
  exists s', rtc step' s s' /\ all_returned s'.
Proof.
  revert s. induction m as [|m IH]; intros s Hwork Hex;
    destruct (exclusive_progress s Hex) as [[s' Hstep]|Hall];
    try (exists s; split; [apply rtc_refl|exact Hall]).
  - pose proof (step_work _ _ Hstep). lia.
  - pose proof (step_work _ _ Hstep).
    destruct (IH s') as (s'' & Hrun & Hall); [lia|apply (exclusive_step s); assumption|].
    exists s''. split; [|exact Hall]. apply (rtc_l _ _ s'); assumption.
Qed.

Lemma work_start n : work (start n w0) = (6 * n)%nat.
Proof.
  unfold work, start. simpl. rewrite fmap_replicate, sum_list_replicate.
  simpl. lia.
Qed.

End Concurrency.

(** C9. Let [n] goroutines, [n] at least one, call [ensureClient] with
    the same inputs, whose key is not nil, on one registry.  However their
    statements interleave, the run ends within [6 * n] steps and can always
    go on until all have returned; at no point are two goroutines between
    [Lock] and [Unlock], and at no point has more than one client been
    constructed.  When all have returned the lock is free and the world is
    the one that a single call leaves behind: exactly one client has been
    constructed and the UID has its one entry, with that client, when the
    registry did not store the fingerprint for the UID at the start (and
    none has been constructed when it did). *)
Theorem concurrent_ensureClient_constructs_once `{Imports}
    (n : nat) (uid : string) (config : cmacme.ACMEIssuer)
    (privateKey : option rsa.PrivateKey) (w : world) (newOpts : stableOptions) :
  newStableOptions uid config privateKey = Some newOpts ->
  (0 < n)%nat ->
  (exists s, rtc (step uid config privateKey) (start n w) s /\ all_returned s)
  /\ forall k s,
      nsteps (step uid config privateKey) k (start n w) s ->
      (k <= 6 * n)%nat
      /\ (forall i j p q,
            goroutines s !! i = Some p -> holds_lock p = true ->
            goroutines s !! j = Some q -> holds_lock q = true ->
            locked s = true /\ i = j)
      /\ (constructions (shared s) <= S (constructions w))%nat
      /\ ((exists s', step uid config privateKey s s') \/ all_returned s)
      /\ (all_returned s ->
          locked s = false
          /\ shared s = after (ensureClient uid config privateKey) w
          /\ (upToDate uid newOpts w = false ->
              constructions (shared s) = S (constructions w)
              /\ clients (shared s) !! uid
                 = Some (mkClientWithMeta (Some (constructions w)) newOpts))
          /\ (upToDate uid newOpts w = true ->
              constructions (shared s) = constructions w)).
Proof.
  intros HF Hn.
  pose proof (exclusive_start uid config privateKey w newOpts n) as Hstart.
  split.
  - apply (exclusive_finishes uid config privateKey w newOpts HF (6 * n)).
    + rewrite work_start. lia.
    + exact Hstart.
  - intros k s Hrun.
    destruct (nsteps_exclusive uid config privateKey w newOpts HF
                k _ _ Hrun Hstart) as (Hex & Hwork & Hlen).
    rewrite work_start in Hwork. simpl in Hlen. rewrite length_replicate in Hlen.
    split; [lia|]. split; [|split; [|split]].
    + intros i j p q.
      apply (exclusive_one_holder uid config privateKey w newOpts s i j p q Hex).
    + apply (exclusive_constructions uid config privateKey w newOpts HF s Hex).
    + apply (exclusive_progress uid config privateKey w newOpts HF s Hex).
    + intros Hall.
      destruct (exclusive_all_returned uid config privateKey w newOpts s Hex)
        as [Hl Hw]; [|exact Hall|].
      { intros Hnil. rewrite Hnil in Hlen. simpl in Hlen. lia. }
      split; [exact Hl|]. split; [exact Hw|]. rewrite Hw. split.
      * intros Hmiss.
        rewrite (w1_world uid config privateKey w newOpts HF Hmiss).
        unfold constructions. simpl. rewrite length_app, lookup_insert_eq. simpl.
        split; [lia|reflexivity].
      * intros Hhit. rewrite (w1_hit uid config privateKey w newOpts HF Hhit).
        reflexivity.
Qed.

Lemma concurrent_ensureClient_constructs_once_witness :
  exists s,
    rtc (step (H := sample.imports) "a" sample.config (Some sample.key))
      (start 3 NewDefaultRegistry) s
    /\ all_returned s.
Proof.
  apply (concurrent_ensureClient_constructs_once (H := sample.imports)
           3 "a" sample.config (Some sample.key) NewDefaultRegistry
           (mkStableOptions "https://acme.example/directory" false "a"
              (string_of_list_byte [x02; x0c; xa1]) 17)).
  - reflexivity.
  - lia.
Defined.

(** * Further properties of the registry *)

Section Frames.
Context `{Imports}.

Lemma ensureClient_cases uid config privateKey w :
  after (ensureClient uid config privateKey) w = w
  \/ exists newOpts,
      newStableOptions uid config privateKey = Some newOpts
      /\ upToDate uid newOpts w = false
      /\ after (ensureClient uid config privateKey) w
         = mkWorld
             (<[uid := mkClientWithMeta (Some (length (heap w))) newOpts]> (clients w))
             (heap w ++ [clientValue config privateKey])
             (snapshots w).
Proof.
  unfold after.
  destruct (newStableOptions uid config privateKey) as [newOpts|] eqn:HF.
  - destruct (upToDate uid newOpts w) eqn:Hup.
    + left. rewrite (ensureClient_hit _ _ _ _ _ HF Hup). reflexivity.
    + right. exists newOpts. rewrite (ensureClient_miss _ _ _ _ _ HF Hup). auto.
  - left. rewrite (ensureClient_panics _ _ _ _ HF). reflexivity.
Qed.

(** X1. [AddClient uid] leaves the entry of every other UID and the maps
    handed out by [ListClients] as they were, and changes no client that
    exists: the heap grows by the one client it constructs, or not at
    all. *)
Theorem AddClient_frame (w : world) (uid : string) (config : cmacme.ACMEIssuer)
    (privateKey : option rsa.PrivateKey) :
  (forall uid', uid' <> uid ->
      clients (after (AddClient uid config privateKey) w) !! uid'
      = clients w !! uid')
  /\ snapshots (after (AddClient uid config privateKey) w) = snapshots w
  /\ (heap (after (AddClient uid config privateKey) w) = heap w
      \/ heap (after (AddClient uid config privateKey) w)
         = heap w ++ [clientValue config privateKey]).
Proof.
  unfold AddClient.
  destruct (ensureClient_cases uid config privateKey w)
    as [-> | (newOpts & _ & _ & ->)]; simpl.
  - auto.
  - repeat split; [|auto].
    intros uid' Hne. apply lookup_insert_ne. congruence.
Qed.

(** X2. [RemoveClient uid] leaves the entry of every other UID, every
    client object and every map handed out by [ListClients] as they were:
    the removed client is dropped from the map and nothing else is done
    to it. *)
Theorem RemoveClient_frame (w : world) (uid : string) :
  (forall uid', uid' <> uid ->
      clients (after (RemoveClient uid) w) !! uid' = clients w !! uid')
  /\ heap (after (RemoveClient uid) w) = heap w
  /\ snapshots (after (RemoveClient uid) w) = snapshots w.
Proof.
  destruct (RemoveClient_after uid w) as (_ & Hc & Hh & Hs).
  repeat split; try assumption.
  intros uid' Hne. rewrite Hc. apply lookup_delete_ne. congruence.
Qed.

Lemma exec_heap c w : exists extra, heap (exec c w) = heap w ++ extra.
Proof.
  destruct c as [uid config privateKey|uid|uid|]; simpl.
  - unfold AddClient.
    destruct (ensureClient_cases uid config privateKey w)
      as [-> | (newOpts & _ & _ & ->)]; simpl.
    + exists []. rewrite app_nil_r. reflexivity.
    + eexists. reflexivity.
  - exists []. rewrite app_nil_r. apply RemoveClient_after.
  - exists []. rewrite app_nil_r. unfold after. rewrite GetClient_lookup. reflexivity.
  - exists []. rewrite app_nil_r. unfold after. rewrite ListClients_world. reflexivity.
Qed.

Lemma run_heap cs w : exists extra, heap (run cs w) = heap w ++ extra.
Proof.
  revert w. induction cs as [|c cs IH]; intros w; simpl.
  - exists []. rewrite app_nil_r. reflexivity.
  - destruct (IH (exec c w)) as [extra ->].
    destruct (exec_heap c w) as [extra' ->].
    exists (extra' ++ extra). rewrite app_assoc. reflexivity.
Qed.

(** X3. No call of the registry changes or moves a client once it is
    constructed: the client at an address stays there, with the same
    fields, through every later sequence of calls, also after its entry is
    replaced or removed. *)
Theorem constructed_client_is_kept (cs : list call) (w : world) (p : loc)
    (v : acmeapi.Client) :
  heap w !! p = Some v -> heap (run cs w) !! p = Some v.
Proof.
  intros Hp. destruct (run_heap cs w) as [extra ->].
  apply lookup_app_l_Some, Hp.
Qed.

End Frames.

Lemma constructed_client_is_kept_witness :
  heap (run (H := sample.imports)
          [CallAddClient "a" sample.staging (Some sample.otherKey);
           CallRemoveClient "a"] sample.registered) !! 0%nat
  = Some (clientValue (H := sample.imports) sample.config (Some sample.key)).
Proof.
  apply (constructed_client_is_kept (H := sample.imports)).
  reflexivity.
Defined.

Section Reachable.
Context `{Imports}.

(** X4. On a registry reached from the empty one, [GetClient] never
    returns a nil client with a nil error: it returns either the address of
    a constructed client and a nil error, or nil and [ErrNotFound]. *)
Theorem GetClient_client_or_ErrNotFound (cs : list call) (uid : string) :
  (exists p v,
      GetClient uid (run cs NewDefaultRegistry)
      = (Returns (Some p, None), run cs NewDefaultRegistry)
      /\ heap (run cs NewDefaultRegistry) !! p = Some v)
  \/ GetClient uid (run cs NewDefaultRegistry)
     = (Returns (None, Some ErrNotFound), run cs NewDefaultRegistry).
Proof.
  rewrite GetClient_lookup.
  destruct (clients (run cs NewDefaultRegistry) !! uid) as [meta|] eqn:Hlook;
    [left|right; reflexivity].
  destruct (registry_inv_run cs NewDefaultRegistry registry_inv_empty uid meta Hlook)
    as (p & config & privateKey & Hi & Hp & _).
  exists p, (clientValue config privateKey). rewrite Hi. auto.
Qed.

Lemma separate_clients_exec c w : separate_clients w -> separate_clients (exec c w).
Proof.
  intros [Halloc Hinj]. destruct c as [uid config privateKey|uid|uid|]; simpl.
  - unfold AddClient.
    destruct (ensureClient_cases uid config privateKey w)
      as [-> | (newOpts & _ & _ & ->)]; [split; assumption|].
    assert (forall u m,
               <[uid := mkClientWithMeta (Some (length (heap w))) newOpts]>
                 (clients w) !! u = Some m ->
               (u = uid /\ Interface m = Some (length (heap w)))
               \/ (u <> uid /\ clients w !! u = Some m)) as Hcases.
    { intros u m. rewrite lookup_insert. destruct (decide (uid = u)) as [<-|Hne].
      - intros [= <-]. left. auto.
      - intros Hlook. right. split; [congruence|exact Hlook]. }
    split; simpl.
    + intros u m [[_ Hi]|[_ Hlook]]%Hcases; unfold allocated; simpl;
        rewrite length_app; simpl.
      * exists (length (heap w)). split; [exact Hi|lia].
      * destruct (Halloc u m Hlook) as (p & Hp & Hlt). exists p. split; [exact Hp|lia].
    + intros u u' m m' [[-> Hi]|[Hne Hlook]]%Hcases [[-> Hi']|[Hne' Hlook']]%Hcases Heq.
      * reflexivity.
      * destruct (Halloc u' m' Hlook') as (p & Hp & Hlt).
        rewrite Hi, Hp in Heq. injection Heq as <-. lia.
      * destruct (Halloc u m Hlook) as (p & Hp & Hlt).
        rewrite Hi', Hp in Heq. injection Heq as ->. lia.
      * apply (Hinj u u' m m' Hlook Hlook' Heq).
  - destruct (RemoveClient_after uid w) as (_ & Hc & Hh & _).
    split.
    + intros u m. rewrite Hc. intros [_ Hlook]%lookup_delete_Some.
      unfold allocated. rewrite Hh. apply (Halloc u m Hlook).
    + intros u u' m m'. rewrite Hc.
      intros [_ Hlook]%lookup_delete_Some [_ Hlook']%lookup_delete_Some.
      apply (Hinj u u' m m' Hlook Hlook').
  - unfold after. rewrite GetClient_lookup. split; assumption.
  - unfold after. rewrite ListClients_world. split; assumption.
Qed.

Lemma separate_clients_run cs w : separate_clients w -> separate_clients (run cs w).
Proof.
  revert w. induction cs as [|c cs IH]; intros w Hsep; simpl; [exact Hsep|].
  apply IH, separate_clients_exec, Hsep.
Qed.

(** X5. On a registry reached from the empty one no client is shared:
    two entries that hold the same client are the entry of one UID. *)
Theorem clients_not_shared (cs : list call) (uid uid' : string)
    (meta meta' : clientWithMeta) :
  clients (run cs NewDefaultRegistry) !! uid = Some meta ->
  clients (run cs NewDefaultRegistry) !! uid' = Some meta' ->
  Interface meta = Interface meta' ->
  uid = uid'.
Proof.
  apply (separate_clients_run cs NewDefaultRegistry).
  split; intros u; intros; simpl in *; rewrite lookup_empty in *; discriminate.
Qed.

(** X6. On a registry reached from the empty one the fingerprint of an
    entry describes the client stored with it: the UID is the key of the
    entry, the server URL is the client's directory URL, and modulus
    encoding and exponent are those of the client's key, which is not
    nil. *)
Theorem fingerprint_describes_client (cs : list call) (uid : string)
    (meta : clientWithMeta) :
  clients (run cs NewDefaultRegistry) !! uid = Some meta ->
  exists p v k,
    Interface meta = Some p
    /\ heap (run cs NewDefaultRegistry) !! p = Some v
    /\ acmeapi.Key v = Some k
    /\ issuerUID (options meta) = uid
    /\ serverURL (options meta) = acmeapi.DirectoryURL v
    /\ publicKey (options meta)
       = string_of_list_byte (GobEncode (rsa.N (rsa.Public k)))
    /\ exponent (options meta) = rsa.E (rsa.Public k).
Proof.
  intros Hlook.
  destruct (registry_inv_run cs NewDefaultRegistry registry_inv_empty uid meta Hlook)
    as (p & config & privateKey & Hi & Hp & HF).
  destruct privateKey as [k|]; [|discriminate].
  exists p, (clientValue config (Some k)), k. injection HF as <-. simpl. auto 10.
Qed.

Lemma constructions_exec c w :
  (constructions (exec c w) <= constructions w + length (added [c]))%nat.
Proof.
  destruct c as [uid config privateKey|uid|uid|]; simpl.
  - unfold AddClient.
    destruct (ensureClient_cases uid config privateKey w)
      as [-> | (newOpts & _ & _ & ->)]; unfold constructions; simpl; [lia|].
    rewrite length_app. simpl. lia.
  - destruct (RemoveClient_after uid w) as (_ & _ & Hh & _).
    unfold constructions. rewrite Hh. lia.
  - unfold after. rewrite GetClient_lookup. simpl. lia.
  - unfold after. rewrite ListClients_world. unfold constructions. simpl. lia.
Qed.

(** X10. A sequence of calls constructs at most one client for each call
    of [AddClient] in it; [RemoveClient], [GetClient] and [ListClients]
    construct none. *)
Theorem constructions_bounded_by_AddClient_calls (cs : list call) (w : world) :
  (constructions w <= constructions (run cs w)
   /\ constructions (run cs w) <= constructions w + length (added cs))%nat.
Proof.
  split.
  - destruct (run_heap cs w) as [extra Hheap]. unfold constructions.
    rewrite Hheap, length_app. lia.
  - revert w. induction cs as [|c cs IH]; intros w; [simpl; lia|].
    assert (length (added (c :: cs)) = length (added [c]) + length (added cs))%nat
      as Hlen.
    { unfold added. destruct c; reflexivity. }
    change (run (c :: cs) w) with (run cs (exec c w)).
    pose proof (IH (exec c w)) as Hrest. pose proof (constructions_exec c w) as Hc.
    rewrite Hlen. lia.
Qed.

End Reachable.

Lemma clients_not_shared_witness :
  clients sample.registered !! "a" <> None /\ "a"%string = "a"%string.
Proof.
  split; [vm_compute; discriminate|].
  apply (clients_not_shared (H := sample.imports)
           [CallAddClient "a" sample.config (Some sample.key);
            CallAddClient "b" sample.config (Some sample.key)]
           "a" "a"
           (mkClientWithMeta (Some 0%nat)
              (mkStableOptions "https://acme.example/directory" false "a"
                 (string_of_list_byte [x02; x0c; xa1]) 17))
           (mkClientWithMeta (Some 0%nat)
              (mkStableOptions "https://acme.example/directory" false "a"
                 (string_of_list_byte [x02; x0c; xa1]) 17))).
  - vm_compute. reflexivity.
  - vm_compute. reflexivity.
  - reflexivity.
Defined.

Lemma fingerprint_describes_client_witness :
  exists p v k,
    Some 0%nat = Some p
    /\ heap sample.registered !! p = Some v
    /\ acmeapi.Key v = Some k
    /\ "a"%string = "a"%string
    /\ "https://acme.example/directory"%string = acmeapi.DirectoryURL v
    /\ string_of_list_byte [x02; x0c; xa1]
       = string_of_list_byte (sample.IntGobEncode (rsa.N (rsa.Public k)))
    /\ 17 = rsa.E (rsa.Public k).
Proof.
  apply (fingerprint_describes_client (H := sample.imports)
           [CallAddClient "a" sample.config (Some sample.key)] "a"
           (mkClientWithMeta (Some 0%nat)
              (mkStableOptions "https://acme.example/directory" false "a"
                 (string_of_list_byte [x02; x0c; xa1]) 17))).
  vm_compute. reflexivity.
Defined.

Section Composition.
Context `{Imports}.

(** X7. The fingerprint reads the server URL, the skip-verify flag and
    the public key only.  After [ensureClient] has returned, a call for the
    same UID whose configuration has the same server URL and flag and whose
    key has the same public key changes nothing, whatever the other fields
    of the configuration and the private part of the key are. *)
Theorem ensureClient_ignores_other_fields
    (w w1 : world) (uid : string) (config config' : cmacme.ACMEIssuer)
    (k k' : rsa.PrivateKey) :
  ensureClient uid config (Some k) w = (Returns tt, w1) ->
  cmacme.Server config' = cmacme.Server config ->
  cmacme.SkipTLSVerify config' = cmacme.SkipTLSVerify config ->
  rsa.Public k' = rsa.Public k ->
  ensureClient uid config' (Some k') w1 = (Returns tt, w1).
Proof.
  intros Hrun Hs Hv Hk.
  assert (newStableOptions uid config' (Some k') = newStableOptions uid config (Some k))
    as HF.
  { unfold newStableOptions. rewrite Hs, Hv, Hk. reflexivity. }
  destruct (newStableOptions uid config (Some k)) as [newOpts|] eqn:HF0;
    [|discriminate].
  apply (ensureClient_hit _ _ _ newOpts); [exact HF|].
  replace w1 with (after (ensureClient uid config (Some k)) w)
    by (unfold after; rewrite Hrun; reflexivity).
  apply upToDate_after_miss, HF0.
Qed.

(** X8. [RemoveClient] forgets the fingerprint: [AddClient] after
    [RemoveClient] of the same UID always constructs a client, also with
    the inputs the removed client was built from, and [GetClient] returns
    that new client. *)
Theorem AddClient_after_RemoveClient_rebuilds
    (w : world) (uid : string) (config : cmacme.ACMEIssuer) (k : rsa.PrivateKey) :
  exists w2,
    AddClient uid config (Some k) (after (RemoveClient uid) w) = (Returns tt, w2)
    /\ constructions w2 = S (constructions w)
    /\ heap w2 = heap w ++ [clientValue config (Some k)]
    /\ GetClient uid w2 = (Returns (Some (constructions w), None), w2).
Proof.
  destruct (RemoveClient_after uid w) as (_ & Hc & Hh & Hs).
  set (w1 := after (RemoveClient uid) w) in *.
  destruct (newStableOptions uid config (Some k)) as [newOpts|] eqn:HF;
    [|discriminate].
  assert (upToDate uid newOpts w1 = false) as Hup.
  { unfold upToDate. rewrite Hc, lookup_delete_eq. reflexivity. }
  unfold AddClient. rewrite (ensureClient_miss _ _ _ _ _ HF Hup).
  eexists. split; [reflexivity|]. unfold constructions. simpl. rewrite Hh.
  repeat split.
  - rewrite length_app. simpl. lia.
  - rewrite GetClient_lookup. simpl. rewrite lookup_insert_eq. reflexivity.
Qed.

(** X9. [RemoveClient] undoes [AddClient] on the map: after [AddClient]
    and then [RemoveClient] of one UID the map is the one before without
    that UID, so it is the map before when the UID had no entry; the
    constructed client stays on the heap. *)
Theorem RemoveClient_after_AddClient
    (w : world) (uid : string) (config : cmacme.ACMEIssuer)
    (privateKey : option rsa.PrivateKey) :
  clients (after (RemoveClient uid) (after (AddClient uid config privateKey) w))
  = delete uid (clients w)
  /\ (clients w !! uid = None ->
      clients (after (RemoveClient uid) (after (AddClient uid config privateKey) w))
      = clients w)
  /\ heap (after (RemoveClient uid) (after (AddClient uid config privateKey) w))
     = heap (after (AddClient uid config privateKey) w).
Proof.
  destruct (RemoveClient_after uid (after (AddClient uid config privateKey) w))
    as (_ & Hc & Hh & _).
  assert (delete uid (clients (after (AddClient uid config privateKey) w))
          = delete uid (clients w)) as Hdel.
  { unfold AddClient.
    destruct (ensureClient_cases uid config privateKey w)
      as [-> | (newOpts & _ & _ & ->)]; [reflexivity|].
    simpl. apply delete_insert_eq. }
  rewrite Hc, Hdel, Hh. repeat split.
  intros Hnone. apply delete_id, Hnone.
Qed.

End Composition.

Lemma ensureClient_ignores_other_fields_witness :
  ensureClient (H := sample.imports) "a"
    (cmacme.mkACMEIssuer "ops@example.com" "https://acme.example/directory" false)
    (Some sample.key') sample.registered
  = (Returns tt, sample.registered).
Proof.
  apply (ensureClient_ignores_other_fields (H := sample.imports)
           NewDefaultRegistry sample.registered "a" sample.config
           (cmacme.mkACMEIssuer "ops@example.com" "https://acme.example/directory" false)
           sample.key sample.key'); reflexivity.
Defined.

(** ** Threads under the reader and writer lock *)

Lemma lookup_insert_cases {A} (l : list A) (i j : nat) (x y : A) :
  <[i := x]> l !! j = Some y ->
  (j = i /\ y = x) \/ (j <> i /\ l !! j = Some y).
Proof.
  intros Hj. destruct (decide (j = i)) as [->|Hne].
  - left. split; [reflexivity|].
    pose proof (lookup_lt_Some _ _ _ Hj) as Hlt. rewrite length_insert in Hlt.
    rewrite list_lookup_insert_eq in Hj by exact Hlt. congruence.
  - right. split; [exact Hne|].
    rewrite list_lookup_insert_ne in Hj by congruence. exact Hj.
Qed.

Lemma sum_list_insert {A} (f : A -> nat) (l : list A) (i : nat) (x y : A) :
  l !! i = Some x ->
  (sum_list (f <$> <[i := y]> l) + f x = sum_list (f <$> l) + f y)%nat.
Proof.
  revert i. induction l as [|z l IH]; intros [|i] Hi; try discriminate.
  - injection Hi as ->. simpl. unfold fmap. lia.
  - specialize (IH i Hi). simpl. unfold fmap in *. lia.
Qed.

Lemma sum_list_positive {A} (f : A -> nat) (l : list A) :
  (0 < sum_list (f <$> l))%nat -> exists i x, l !! i = Some x /\ (0 < f x)%nat.
Proof.
  induction l as [|z l IH]; simpl; [lia|]. intros Hpos.
  destruct (decide (0 < f z)%nat) as [Hz|Hz].
  - exists 0%nat, z. auto.
  - destruct IH as (i & x & Hi & Hx); [unfold fmap in *; lia|].
    exists (S i), x. auto.
Qed.

Lemma sum_list_insert_lt {A} (f g : A -> nat) (l : list A) (i : nat) (x y : A) :
  l !! i = Some x ->
  (forall z, g z <= f z)%nat ->
  (g y < f x)%nat ->
  (sum_list (g <$> <[i := y]> l) < sum_list (f <$> l))%nat.
Proof.
  intros Hi Hle Hlt.
  assert (forall k : list A, (sum_list (g <$> k) <= sum_list (f <$> k))%nat) as Hall.
  { induction k as [|z k IH]; simpl; [lia|]. specialize (Hle z).
    unfold fmap in *. lia. }
  revert i Hi. induction l as [|z l IH]; intros [|i] Hi; try discriminate; simpl.
  - injection Hi as ->. specialize (Hall l). unfold fmap in *. lia.
  - specialize (IH i Hi). specialize (Hle z). unfold fmap in *. lia.
Qed.

Lemma fmap_insert_same {A B} (f : A -> B) (l : list A) (i : nat) (x y : A) :
  l !! i = Some x -> f y = f x -> f <$> <[i := y]> l = f <$> l.
Proof.
  intros Hi Hf. rewrite list_fmap_insert, Hf. apply list_insert_id.
  rewrite list_lookup_fmap, Hi. reflexivity.
Qed.

Section Serial.
Context `{Imports}.

Lemma run_app cs cs' w : run (cs ++ cs') w = run cs' (run cs w).
Proof. unfold run. apply fold_left_app. Qed.

Lemma sequence_snoc ts order i t :
  ts !! i = Some t -> sequence ts (order ++ [i]) = sequence ts order ++ [call_of t].
Proof.
  intros Hi. unfold sequence. rewrite omap_app. f_equal. simpl.
  rewrite Hi. reflexivity.
Qed.

Lemma writing_exclusive t :
  writing t = true ->
  took_effect t = false /\ reading t = false /\ result_of t = None
  /\ listed_of t = None.
Proof.
  destruct t as [uid config privateKey p|uid p|uid p|p]; destruct p;
    simpl; try discriminate; auto.
Qed.

Lemma at_start_exclusive t :
  at_start t = true ->
  took_effect t = false /\ reading t = false /\ writing t = false
  /\ result_of t = None /\ listed_of t = None.
Proof.
  destruct t as [uid config privateKey p|uid p|uid p|p]; destruct p;
    simpl; try discriminate; auto 10.
Qed.

Lemma count_reading_insert ts i t t' :
  ts !! i = Some t ->
  (count_reading (<[i := t']> ts) + (if reading t then 1 else 0)
   = count_reading ts + (if reading t' then 1 else 0))%nat.
Proof.
  intros Hi. unfold count_reading.
  apply (sum_list_insert (fun x => if reading x then 1%nat else 0%nat) _ _ _ _ Hi).
Qed.

Lemma count_reading_member ts i t :
  ts !! i = Some t -> reading t = true -> (0 < count_reading ts)%nat.
Proof.
  intros Hi Hr. pose proof (count_reading_insert ts i t t Hi) as Hc.
  rewrite Hr in Hc. pose proof (count_reading_insert ts i t (Removing "" RmReturned) Hi) as Hc'.
  rewrite Hr in Hc'. simpl in Hc'. lia.
Qed.

Lemma count_reading_zero ts :
  count_reading ts = 0%nat -> forall j t, ts !! j = Some t -> reading t = false.
Proof.
  intros Hz j t Hj. destruct (reading t) eqn:Hr; [|reflexivity].
  pose proof (count_reading_member ts j t Hj Hr). lia.
Qed.

Lemma fill_union rest m :
  NoDup rest.*1 ->
  fill rest m = list_to_map (prod_map id Interface <$> rest) ∪ m.
Proof.
  revert m. induction rest as [|[k v] rest IH]; intros m Hnd; simpl.
  - symmetry. apply (left_id_L ∅ (∪)).
  - apply NoDup_cons in Hnd as [Hk Hnd]. unfold fill in *. simpl.
    rewrite (IH _ Hnd). rewrite <- insert_union_l. symmetry.
    apply insert_union_r. apply not_elem_of_list_to_map_1.
    rewrite <- list_fmap_compose.
    replace (fst ∘ prod_map id Interface) with (@fst string clientWithMeta)
      by reflexivity.
    exact Hk.
Qed.

Lemma fill_map_to_list (m : gmap string clientWithMeta) :
  fill (map_to_list m) ∅ = Interface <$> m.
Proof.
  rewrite fill_union by apply NoDup_fst_map_to_list.
  rewrite (right_id_L ∅ (∪)), list_to_map_fmap, list_to_map_to_list. reflexivity.
Qed.

End Serial.

Section SerialSteps.
Context `{Imports}.
Variables (ts0 : list thread) (w0 : world).

Lemma took_effect_same (ts : list thread) (done : list nat) i t t' :
  (forall j x, ts !! j = Some x -> (j ∈ done <-> took_effect x = true)) ->
  ts !! i = Some t ->
  took_effect t' = took_effect t ->
  forall j x, <[i := t']> ts !! j = Some x -> (j ∈ done <-> took_effect x = true).
Proof.
  intros Hdone Hi Heq j x [[-> ->]|[_ Hj]]%lookup_insert_cases.
  - rewrite Heq. apply (Hdone i t Hi).
  - apply (Hdone j x Hj).
Qed.

Lemma took_effect_snoc (ts : list thread) (done : list nat) i t t' :
  (forall j x, ts !! j = Some x -> (j ∈ done <-> took_effect x = true)) ->
  ts !! i = Some t ->
  took_effect t' = true ->
  forall j x, <[i := t']> ts !! j = Some x ->
    (j ∈ done ++ [i] <-> took_effect x = true).
Proof.
  intros Hdone Hi Ht' j x [[-> ->]|[Hne Hj]]%lookup_insert_cases;
    rewrite elem_of_app, list_elem_of_singleton.
  - split; auto.
  - rewrite <- (Hdone j x Hj). split; [intros [?|?]; [assumption|contradiction]|auto].
Qed.

Lemma results_same (ts : list thread) (done : list nat) i t t' :
  (forall j x result,
      ts !! j = Some x -> result_of x = Some result ->
      exists pre post,
        done = pre ++ j :: post
        /\ fst (GetClient (uid_of x) (run (sequence ts0 pre) w0)) = Returns result) ->
  ts !! i = Some t ->
  (forall result, result_of t' = Some result ->
     result_of t = Some result /\ uid_of t' = uid_of t) ->
  forall j x result,
    <[i := t']> ts !! j = Some x -> result_of x = Some result ->
    exists pre post,
      done = pre ++ j :: post
      /\ fst (GetClient (uid_of x) (run (sequence ts0 pre) w0)) = Returns result.
Proof.
  intros Hres Hi Hsame j x result [[-> ->]|[_ Hj]]%lookup_insert_cases Hx.
  - destruct (Hsame result Hx) as [Ht ->]. apply (Hres i t result Hi Ht).
  - apply (Hres j x result Hj Hx).
Qed.

Lemma results_snoc (ts : list thread) (done : list nat) i t t' :
  (forall j x result,
      ts !! j = Some x -> result_of x = Some result ->
      exists pre post,
        done = pre ++ j :: post
        /\ fst (GetClient (uid_of x) (run (sequence ts0 pre) w0)) = Returns result) ->
  ts !! i = Some t ->
  (forall result, result_of t' = Some result ->
     fst (GetClient (uid_of t') (run (sequence ts0 done) w0)) = Returns result) ->
  forall j x result,
    <[i := t']> ts !! j = Some x -> result_of x = Some result ->
    exists pre post,
      done ++ [i] = pre ++ j :: post
      /\ fst (GetClient (uid_of x) (run (sequence ts0 pre) w0)) = Returns result.
Proof.
  intros Hres Hi Hnew j x result [[-> ->]|[_ Hj]]%lookup_insert_cases Hx.
  - exists done, []. split; [reflexivity|]. apply (Hnew result Hx).
  - destruct (Hres j x result Hj Hx) as (pre & post & -> & Hget).
    exists pre, (post ++ [i]). split; [|exact Hget].
    rewrite <- app_assoc. reflexivity.
Qed.

Lemma listed_same (ts : list thread) (done : list nat) i t t' :
  (forall j x out,
      ts !! j = Some x -> listed_of x = Some out ->
      exists pre post,
        done = pre ++ j :: post
        /\ out = length (snapshots (run (sequence ts0 pre) w0))) ->
  ts !! i = Some t ->
  (forall out, listed_of t' = Some out -> listed_of t = Some out) ->
  forall j x out,
    <[i := t']> ts !! j = Some x -> listed_of x = Some out ->
    exists pre post,
      done = pre ++ j :: post
      /\ out = length (snapshots (run (sequence ts0 pre) w0)).
Proof.
  intros Hls Hi Hsame j x out [[-> ->]|[_ Hj]]%lookup_insert_cases Hx.
  - apply (Hls i t out Hi (Hsame out Hx)).
  - apply (Hls j x out Hj Hx).
Qed.

Lemma listed_snoc (ts : list thread) (done : list nat) i t t' :
  (forall j x out,
      ts !! j = Some x -> listed_of x = Some out ->
      exists pre post,
        done = pre ++ j :: post
        /\ out = length (snapshots (run (sequence ts0 pre) w0))) ->
  ts !! i = Some t ->
  (forall out, listed_of t' = Some out ->
     out = length (snapshots (run (sequence ts0 done) w0))) ->
  forall j x out,
    <[i := t']> ts !! j = Some x -> listed_of x = Some out ->
    exists pre post,
      done ++ [i] = pre ++ j :: post
      /\ out = length (snapshots (run (sequence ts0 pre) w0)).
Proof.
  intros Hls Hi Hnew j x out [[-> ->]|[_ Hj]]%lookup_insert_cases Hx.
  - exists done, []. split; [reflexivity|]. apply (Hnew out Hx).
  - destruct (Hls j x out Hj Hx) as (pre & post & -> & Hout).
    exists pre, (post ++ [i]). split; [|exact Hout].
    rewrite <- app_assoc. reflexivity.
Qed.

Lemma serial_index (ts : list thread) i t :
  call_of <$> ts = call_of <$> ts0 -> ts !! i = Some t ->
  exists t0, ts0 !! i = Some t0 /\ call_of t0 = call_of t.
Proof.
  intros Hcalls Hi.
  assert ((call_of <$> ts0) !! i = Some (call_of t)) as Hc.
  { rewrite <- Hcalls, list_lookup_fmap, Hi. reflexivity. }
  rewrite list_lookup_fmap in Hc. destruct (ts0 !! i) as [t0|]; [|discriminate].
  exists t0. split; [reflexivity|]. simpl in Hc. congruence.
Qed.

End SerialSteps.

Section Agreement.
Context `{Imports}.

Lemma not_reading_not_ranging t :
  reading t = false -> forall out rest, t <> Listing (LsAtRange out rest).
Proof. intros Hr out rest ->. discriminate. Qed.

(** A step of a thread that is not in the range loop, before or after. *)
Lemma agrees_other base w ts i t t' :
  agrees base w ts ->
  ts !! i = Some t ->
  (forall out rest, t <> Listing (LsAtRange out rest)) ->
  (forall out rest, t' <> Listing (LsAtRange out rest)) ->
  agrees base w (<[i := t']> ts).
Proof.
  intros (Hc & Hh & Hlen & Hfill & Hsame & Hone) Hi Ht Ht'.
  repeat split; try assumption.
  - intros j out rest [[-> Heq]|[_ Hj]]%lookup_insert_cases.
    + destruct (Ht' out rest). congruence.
    + apply (Hfill j out rest Hj).
  - intros out Hnone. apply Hsame. intros j rest Hj.
    destruct (decide (j = i)) as [->|Hne].
    + rewrite Hi in Hj. injection Hj as ->. apply (Ht out rest eq_refl).
    + apply (Hnone j rest). rewrite list_lookup_insert_ne by congruence. exact Hj.
  - intros j j' out rest rest' [[-> Heq]|[_ Hj]]%lookup_insert_cases
      [[-> Heq']|[_ Hj']]%lookup_insert_cases.
    + reflexivity.
    + destruct (Ht' out rest). congruence.
    + destruct (Ht' out rest'). congruence.
    + apply (Hone j j' out rest rest' Hj Hj').
Qed.

Lemma agrees_eq base w ts :
  agrees base w ts ->
  (forall j t, ts !! j = Some t -> reading t = false) ->
  w = base.
Proof.
  intros (Hc & Hh & _ & _ & Hsame & _) Hidle.
  assert (snapshots w = snapshots base) as Hs.
  { apply list_eq. intros out. apply Hsame. intros j rest Hj.
    pose proof (Hidle j _ Hj). discriminate. }
  destruct w, base. simpl in *. congruence.
Qed.

Lemma agrees_refl w ts :
  (forall j t, ts !! j = Some t -> reading t = false) -> agrees w w ts.
Proof.
  intros Hidle. repeat split.
  - intros j out rest Hj. pose proof (Hidle j _ Hj). discriminate.
  - intros j j' out rest rest' Hj. pose proof (Hidle j _ Hj). discriminate.
Qed.

(** [make]: the call of [ListClients] takes effect. *)
Lemma agrees_make base w ts i :
  agrees base w ts ->
  ts !! i = Some (Listing LsAtMake) ->
  agrees (exec CallListClients base) (set_snapshots (fun s => s ++ [∅]) w)
    (<[i := Listing (LsAtRange (length (snapshots w)) (map_to_list (clients w)))]> ts).
Proof.
  intros (Hc & Hh & Hlen & Hfill & Hsame & Hone) Hi.
  simpl. unfold after. rewrite ListClients_world. simpl.
  assert (forall j rest,
             ts !! j <> Some (Listing (LsAtRange (length (snapshots w)) rest)))
    as Hfresh.
  { intros j rest Hj. destruct (Hfill j _ rest Hj) as (m & Hm & _).
    apply lookup_lt_Some in Hm. lia. }
  repeat split; simpl; try assumption.
  - rewrite !length_app, Hlen. reflexivity.
  - intros j out rest [[-> [= -> ->]]|[_ Hj]]%lookup_insert_cases.
    + exists ∅. split; [apply list_lookup_middle; reflexivity|].
      rewrite Hc, fill_map_to_list. apply list_lookup_middle. exact Hlen.
    + destruct (Hfill j out rest Hj) as (m & Hm & Hb). exists m.
      split; apply lookup_app_l_Some; assumption.
  - intros out Hnone.
    assert (out <> length (snapshots w)) as Hout.
    { intros ->. apply (Hnone i (map_to_list (clients w))).
      apply list_lookup_insert_eq, (lookup_lt_Some _ _ _ Hi). }
    assert (snapshots w !! out = snapshots base !! out) as Hold.
    { apply Hsame. intros j rest Hj. destruct (decide (j = i)) as [->|Hne].
      - rewrite Hi in Hj. discriminate.
      - apply (Hnone j rest). rewrite list_lookup_insert_ne by congruence.
        exact Hj. }
    destruct (decide (out < length (snapshots w))%nat) as [Hlt|Hge].
    + rewrite !lookup_app_l by lia. exact Hold.
    + rewrite !lookup_ge_None_2; [reflexivity| |]; rewrite length_app; simpl; lia.
  - intros j j' out rest rest' [[-> [= -> ->]]|[_ Hj]]%lookup_insert_cases
      [[-> Heq']|[_ Hj']]%lookup_insert_cases.
    + reflexivity.
    + destruct (Hfresh j' rest' Hj').
    + injection Heq' as -> _. destruct (Hfresh j rest Hj).
    + apply (Hone j j' out rest rest' Hj Hj').
Qed.

(** One turn of the range loop. *)
Lemma agrees_assign base w ts i out k v rest :
  agrees base w ts ->
  ts !! i = Some (Listing (LsAtRange out ((k, v) :: rest))) ->
  agrees base (mapAssign out k (Interface v) w)
    (<[i := Listing (LsAtRange out rest)]> ts).
Proof.
  intros (Hc & Hh & Hlen & Hfill & Hsame & Hone) Hi.
  unfold mapAssign. repeat split; simpl; try assumption.
  - rewrite length_alter. exact Hlen.
  - intros j out' rest' [[-> Heq]|[Hne Hj]]%lookup_insert_cases.
    + injection Heq as -> ->. destruct (Hfill i out _ Hi) as (m & Hm & Hb).
      exists (<[k := Interface v]> m). split; [|exact Hb].
      rewrite list_lookup_alter_eq. unfold loc in *. rewrite Hm. reflexivity.
    + destruct (Hfill j out' rest' Hj) as (m & Hm & Hb). exists m.
      split; [|exact Hb]. rewrite list_lookup_alter_ne; [exact Hm|].
      intros ->. apply Hne. apply (Hone j i out' rest' _ Hj Hi).
  - intros out' Hnone.
    assert (out' <> out) as Hout.
    { intros ->. apply (Hnone i rest).
      apply list_lookup_insert_eq, (lookup_lt_Some _ _ _ Hi). }
    rewrite list_lookup_alter_ne by congruence. apply Hsame.
    intros j rest' Hj. destruct (decide (j = i)) as [->|Hne].
    + rewrite Hi in Hj. congruence.
    + apply (Hnone j rest'). rewrite list_lookup_insert_ne by congruence.
      exact Hj.
  - intros j j' out' rest' rest'' [[-> Heq]|[_ Hj]]%lookup_insert_cases
      [[-> Heq']|[_ Hj']]%lookup_insert_cases.
    + reflexivity.
    + injection Heq as -> _. apply (Hone i j' out _ rest'' Hi Hj').
    + injection Heq' as -> _. apply (Hone j i out rest' _ Hj Hi).
    + apply (Hone j j' out' rest' rest'' Hj Hj').
Qed.

(** The end of the range loop. *)
Lemma agrees_range_end base w ts i out t' :
  agrees base w ts ->
  ts !! i = Some (Listing (LsAtRange out [])) ->
  (forall out' rest, t' <> Listing (LsAtRange out' rest)) ->
  agrees base w (<[i := t']> ts).
Proof.
  intros (Hc & Hh & Hlen & Hfill & Hsame & Hone) Hi Ht'.
  repeat split; try assumption.
  - intros j out' rest [[-> Heq]|[_ Hj]]%lookup_insert_cases.
    + destruct (Ht' out' rest). congruence.
    + apply (Hfill j out' rest Hj).
  - intros out' Hnone. destruct (decide (out' = out)) as [->|Hout].
    + destruct (Hfill i out [] Hi) as (m & Hm & Hb). rewrite Hm, Hb. reflexivity.
    + apply Hsame. intros j rest Hj. destruct (decide (j = i)) as [->|Hne].
      * rewrite Hi in Hj. congruence.
      * apply (Hnone j rest). rewrite list_lookup_insert_ne by congruence.
        exact Hj.
  - intros j j' out' rest rest' [[-> Heq]|[_ Hj]]%lookup_insert_cases
      [[-> Heq']|[_ Hj']]%lookup_insert_cases.
    + reflexivity.
    + destruct (Ht' out' rest). congruence.
    + destruct (Ht' out' rest'). congruence.
    + apply (Hone j j' out' rest rest' Hj Hj').
Qed.

End Agreement.



Section SerialKinds.
Context `{Imports}.
Variables (ts0 : list thread) (w0 : world).

#[local] Abbreviation serial' := (serial ts0 w0).

(** A statement of the writer that holds the lock, other than [Unlock]. *)
Lemma serial_inside s i t t' w' :
  serial' s ->
  threads s !! i = Some t ->
  writing t = true -> writing t' = true -> call_of t' = call_of t ->
  (forall base, midway t base (memory s) -> midway t' base w') ->
  serial' (mkProcess w' (writer s) (readers s) (<[i := t']> (threads s))).
Proof.
  intros (done & Hnd & Hcalls & Hdone & Hlt & Hrd & Hres & Hls & Hw)
    Hi Hwt Hwt' Hcall Hmid.
  destruct (writing_exclusive t Hwt) as (Hte & Hrt & _ & _).
  destruct (writing_exclusive t' Hwt') as (Hte' & Hrt' & Hrest' & Hlst').
  destruct (writer s) eqn:Hwr.
  2: { destruct Hw as [_ Hall]. rewrite (Hall i t Hi) in Hwt. discriminate. }
  destruct Hw as (Hrd0 & i0 & t0 & Hi0 & Hmid0 & Hothers).
  assert (i0 = i) as ->.
  { destruct (decide (i = i0)) as [->|Hne]; [reflexivity|].
    rewrite (Hothers i t Hne Hi) in Hwt. discriminate. }
  rewrite Hi in Hi0. injection Hi0 as <-.
  exists done. simpl. split; [exact Hnd|].
  split; [rewrite (fmap_insert_same _ _ _ _ _ Hi Hcall); exact Hcalls|].
  split; [apply (took_effect_same _ _ _ t); [exact Hdone|exact Hi|congruence]|].
  split; [exact Hlt|].
  split.
  { pose proof (count_reading_insert _ i t t' Hi) as Hc.
    rewrite Hrt, Hrt' in Hc. lia. }
  split.
  { apply (results_same ts0 w0 _ _ _ t); [exact Hres|exact Hi|].
    intros r Hr. rewrite Hrest' in Hr. discriminate. }
  split.
  { apply (listed_same ts0 w0 _ _ _ t); [exact Hls|exact Hi|].
    intros out Hout. rewrite Hlst' in Hout. discriminate. }
  split; [exact Hrd0|]. exists i, t'.
  split; [apply list_lookup_insert_eq, (lookup_lt_Some _ _ _ Hi)|].
  split; [apply Hmid, Hmid0|].
  intros j x Hne Hj. rewrite list_lookup_insert_ne in Hj by congruence.
  apply (Hothers j x Hne Hj).
Qed.

(** [Lock] by a thread that is about to write. *)
Lemma serial_acquire s i t t' :
  serial' s ->
  threads s !! i = Some t ->
  at_start t = true -> writer s = false -> readers s = 0%nat ->
  writing t' = true -> call_of t' = call_of t ->
  (forall base, midway t' base base) ->
  serial' (mkProcess (memory s) true (readers s) (<[i := t']> (threads s))).
Proof.
  intros (done & Hnd & Hcalls & Hdone & Hlt & Hrd & Hres & Hls & Hw)
    Hi Hst Hwr Hrd0 Hwt' Hcall Hmid.
  destruct (at_start_exclusive t Hst) as (Hte & Hrt & _ & _).
  destruct (writing_exclusive t' Hwt') as (Hte' & Hrt' & Hrest' & Hlst').
  rewrite Hwr in Hw. destruct Hw as [Hagree Hall].
  assert (memory s = run (sequence ts0 done) w0) as Hmem.
  { apply (agrees_eq _ _ _ Hagree), count_reading_zero. congruence. }
  exists done. simpl. split; [exact Hnd|].
  split; [rewrite (fmap_insert_same _ _ _ _ _ Hi Hcall); exact Hcalls|].
  split; [apply (took_effect_same _ _ _ t); [exact Hdone|exact Hi|congruence]|].
  split; [exact Hlt|].
  split.
  { pose proof (count_reading_insert _ i t t' Hi) as Hc.
    rewrite Hrt, Hrt' in Hc. lia. }
  split.
  { apply (results_same ts0 w0 _ _ _ t); [exact Hres|exact Hi|].
    intros r Hr. rewrite Hrest' in Hr. discriminate. }
  split.
  { apply (listed_same ts0 w0 _ _ _ t); [exact Hls|exact Hi|].
    intros out Hout. rewrite Hlst' in Hout. discriminate. }
  split; [exact Hrd0|]. exists i, t'.
  split; [apply list_lookup_insert_eq, (lookup_lt_Some _ _ _ Hi)|].
  split; [rewrite Hmem; apply Hmid|].
  intros j x Hne Hj. rewrite list_lookup_insert_ne in Hj by congruence.
  apply (Hall j x Hj).
Qed.

(** The deferred [Unlock] of the writer: its call takes effect. *)
Lemma serial_release s i t t' :
  serial' s ->
  threads s !! i = Some t ->
  writing t = true ->
  finished t' = true -> writing t' = false -> reading t' = false ->
  result_of t' = None -> listed_of t' = None -> call_of t' = call_of t ->
  (forall base, midway t base (memory s) -> memory s = exec (call_of t) base) ->
  serial' (mkProcess (memory s) false (readers s) (<[i := t']> (threads s))).
Proof.
  intros (done & Hnd & Hcalls & Hdone & Hlt & Hrd & Hres & Hls & Hw)
    Hi Hwt Hfin Hwt' Hrt' Hrest' Hlst' Hcall Hmid.
  destruct (writing_exclusive t Hwt) as (Hte & Hrt & _ & _).
  destruct (writer s) eqn:Hwr.
  2: { destruct Hw as [_ Hall]. rewrite (Hall i t Hi) in Hwt. discriminate. }
  destruct Hw as (Hrd0 & i0 & t0 & Hi0 & Hmid0 & Hothers).
  assert (i0 = i) as ->.
  { destruct (decide (i = i0)) as [->|Hne]; [reflexivity|].
    rewrite (Hothers i t Hne Hi) in Hwt. discriminate. }
  rewrite Hi in Hi0. injection Hi0 as <-.
  destruct (serial_index ts0 _ i t Hcalls Hi) as (t0 & Hi0 & Hcall0).
  assert (i ∉ done) as Hfresh.
  { intros Hin. apply (Hdone i t Hi) in Hin. congruence. }
  assert (count_reading (<[i := t']> (threads s)) = 0%nat) as Hcount.
  { pose proof (count_reading_insert _ i t t' Hi) as Hc.
    rewrite Hrt, Hrt' in Hc. lia. }
  exists (done ++ [i]). simpl.
  split.
  { apply NoDup_app. split; [exact Hnd|]. split; [|apply NoDup_singleton].
    intros j Hj ->%list_elem_of_singleton. contradiction. }
  split; [rewrite (fmap_insert_same _ _ _ _ _ Hi Hcall); exact Hcalls|].
  split.
  { apply (took_effect_snoc _ _ _ t); [exact Hdone|exact Hi|].
    unfold took_effect. rewrite Hfin. reflexivity. }
  split.
  { intros j [Hj| ->%list_elem_of_singleton]%elem_of_app; [apply (Hlt j Hj)|].
    apply (lookup_lt_Some _ _ _ Hi0). }
  split; [lia|].
  split.
  { apply (results_snoc ts0 w0 _ _ _ t); [exact Hres|exact Hi|].
    intros r Hr. rewrite Hrest' in Hr. discriminate. }
  split.
  { apply (listed_snoc ts0 w0 _ _ _ t); [exact Hls|exact Hi|].
    intros out Hout. rewrite Hlst' in Hout. discriminate. }
  split.
  - rewrite (sequence_snoc _ _ _ _ Hi0), run_app, Hcall0. simpl.
    rewrite <- (Hmid _ Hmid0). apply agrees_refl, count_reading_zero, Hcount.
  - intros j x [[-> ->]|[Hne Hj]]%lookup_insert_cases; [exact Hwt'|].
    apply (Hothers j x Hne Hj).
Qed.

Lemma serial_no_writer s i t :
  serial' s -> threads s !! i = Some t -> reading t = true -> writer s = false.
Proof.
  intros (done & _ & _ & _ & _ & Hrd & _ & _ & Hw) Hi Hrt.
  destruct (writer s); [|reflexivity]. destruct Hw as [Hrd0 _].
  pose proof (count_reading_member _ i t Hi Hrt). lia.
Qed.

(** [RLock]. *)
Lemma serial_rlock s i t t' :
  serial' s ->
  threads s !! i = Some t ->
  at_start t = true -> writer s = false ->
  reading t' = true -> writing t' = false -> took_effect t' = false ->
  result_of t' = None -> listed_of t' = None -> call_of t' = call_of t ->
  serial' (mkProcess (memory s) (writer s) (S (readers s))
             (<[i := t']> (threads s))).
Proof.
  intros (done & Hnd & Hcalls & Hdone & Hlt & Hrd & Hres & Hls & Hw)
    Hi Hst Hwr Hrt' Hwt' Hte' Hrest' Hlst' Hcall.
  destruct (at_start_exclusive t Hst) as (Hte & Hrt & _ & _).
  rewrite Hwr in *. destruct Hw as [Hagree Hall].
  exists done. simpl. split; [exact Hnd|].
  split; [rewrite (fmap_insert_same _ _ _ _ _ Hi Hcall); exact Hcalls|].
  split; [apply (took_effect_same _ _ _ t); [exact Hdone|exact Hi|congruence]|].
  split; [exact Hlt|].
  split.
  { pose proof (count_reading_insert _ i t t' Hi) as Hc.
    rewrite Hrt, Hrt' in Hc. lia. }
  split.
  { apply (results_same ts0 w0 _ _ _ t); [exact Hres|exact Hi|].
    intros r Hr. rewrite Hrest' in Hr. discriminate. }
  split.
  { apply (listed_same ts0 w0 _ _ _ t); [exact Hls|exact Hi|].
    intros out Hout. rewrite Hlst' in Hout. discriminate. }
  split.
  - apply (agrees_other _ _ _ _ t); [exact Hagree|exact Hi| |].
    + apply not_reading_not_ranging, Hrt.
    + intros out rest ->. discriminate.
  - intros j x [[-> ->]|[Hne Hj]]%lookup_insert_cases; [exact Hwt'|].
    apply (Hall j x Hj).
Qed.

(** The lookup of [GetClient]: its call takes effect. *)
Lemma serial_lookup s i uid :
  serial' s ->
  threads s !! i = Some (Getting uid GetAtLookup) ->
  serial' (mkProcess (memory s) (writer s) (readers s)
             (<[i := Getting uid
                       (GetAtRUnlock match clients (memory s) !! uid with
                                     | Some c => (Interface c, None)
                                     | None => (None, Some ErrNotFound)
                                     end)]> (threads s))).
Proof.
  intros Hs Hi. pose proof (serial_no_writer s i _ Hs Hi eq_refl) as Hwr.
  destruct Hs as (done & Hnd & Hcalls & Hdone & Hlt & Hrd & Hres & Hls & Hw).
  rewrite Hwr in *. destruct Hw as [Hagree Hall].
  destruct (serial_index ts0 _ i _ Hcalls Hi) as (t0 & Hi0 & Hcall0).
  assert (i ∉ done) as Hfresh.
  { intros Hin. apply (Hdone i _ Hi) in Hin. discriminate. }
  exists (done ++ [i]). simpl.
  split.
  { apply NoDup_app. split; [exact Hnd|]. split; [|apply NoDup_singleton].
    intros j Hj ->%list_elem_of_singleton. contradiction. }
  split.
  { rewrite (fmap_insert_same call_of _ _ _ (Getting uid (GetAtRUnlock _)) Hi eq_refl).
    exact Hcalls. }
  split; [apply (took_effect_snoc _ _ _ _ _ Hdone Hi); reflexivity|].
  split.
  { intros j [Hj| ->%list_elem_of_singleton]%elem_of_app; [apply (Hlt j Hj)|].
    apply (lookup_lt_Some _ _ _ Hi0). }
  split.
  { pose proof (count_reading_insert _ i _
                  (Getting uid
                     (GetAtRUnlock match clients (memory s) !! uid with
                                   | Some c => (Interface c, None)
                                   | None => (None, Some ErrNotFound)
                                   end)) Hi) as Hc.
    simpl in Hc. lia. }
  split.
  { apply (results_snoc ts0 w0 _ _ _ _ _ Hres Hi). intros r [= <-]. simpl.
    destruct Hagree as (Hc & _). rewrite GetClient_lookup, <- Hc. reflexivity. }
  split.
  { apply (listed_snoc ts0 w0 _ _ _ _ _ Hls Hi). intros out Hout. discriminate. }
  split.
  - rewrite (sequence_snoc _ _ _ _ Hi0), run_app, Hcall0. simpl.
    unfold after. rewrite GetClient_lookup. simpl.
    apply (agrees_other _ _ _ _ _ _ Hagree Hi); intros out rest; discriminate.
  - intros j x [[-> ->]|[Hne Hj]]%lookup_insert_cases; [reflexivity|].
    apply (Hall j x Hj).
Qed.

(** [RUnlock]. *)
Lemma serial_runlock s i t t' :
  serial' s ->
  threads s !! i = Some t ->
  reading t = true -> took_effect t = true ->
  (forall out rest, t <> Listing (LsAtRange out rest)) ->
  finished t' = true -> reading t' = false -> writing t' = false ->
  (forall r, result_of t' = Some r -> result_of t = Some r /\ uid_of t' = uid_of t) ->
  (forall out, listed_of t' = Some out -> listed_of t = Some out) ->
  call_of t' = call_of t ->
  serial' (mkProcess (memory s) (writer s) (Nat.pred (readers s))
             (<[i := t']> (threads s))).
Proof.
  intros Hs Hi Hrt Hte Hnr Hfin Hrt' Hwt' Hrest' Hlst' Hcall.
  pose proof (serial_no_writer s i _ Hs Hi Hrt) as Hwr.
  destruct Hs as (done & Hnd & Hcalls & Hdone & Hlt & Hrd & Hres & Hls & Hw).
  rewrite Hwr in *. destruct Hw as [Hagree Hall].
  exists done. simpl. split; [exact Hnd|].
  split; [rewrite (fmap_insert_same _ _ _ _ _ Hi Hcall); exact Hcalls|].
  split.
  { apply (took_effect_same _ _ _ t); [exact Hdone|exact Hi|].
    rewrite Hte. unfold took_effect. rewrite Hfin. reflexivity. }
  split; [exact Hlt|].
  split.
  { pose proof (count_reading_insert _ i t t' Hi) as Hc.
    rewrite Hrt, Hrt' in Hc. lia. }
  split; [apply (results_same ts0 w0 _ _ _ t); assumption|].
  split; [apply (listed_same ts0 w0 _ _ _ t); assumption|].
  split.
  - apply (agrees_other _ _ _ _ t); [exact Hagree|exact Hi|exact Hnr|].
    apply not_reading_not_ranging, Hrt'.
  - intros j x [[-> ->]|[Hne Hj]]%lookup_insert_cases; [exact Hwt'|].
    apply (Hall j x Hj).
Qed.

(** [make] in [ListClients]: its call takes effect. *)
Lemma serial_make s i :
  serial' s ->
  threads s !! i = Some (Listing LsAtMake) ->
  serial' (mkProcess (set_snapshots (fun l => l ++ [∅]) (memory s))
             (writer s) (readers s)
             (<[i := Listing (LsAtRange (length (snapshots (memory s)))
                                (map_to_list (clients (memory s))))]>
                (threads s))).
Proof.
  intros Hs Hi. pose proof (serial_no_writer s i _ Hs Hi eq_refl) as Hwr.
  destruct Hs as (done & Hnd & Hcalls & Hdone & Hlt & Hrd & Hres & Hls & Hw).
  rewrite Hwr in *. destruct Hw as [Hagree Hall].
  destruct (serial_index ts0 _ i _ Hcalls Hi) as (t0 & Hi0 & Hcall0).
  assert (i ∉ done) as Hfresh.
  { intros Hin. apply (Hdone i _ Hi) in Hin. discriminate. }
  exists (done ++ [i]). simpl.
  split.
  { apply NoDup_app. split; [exact Hnd|]. split; [|apply NoDup_singleton].
    intros j Hj ->%list_elem_of_singleton. contradiction. }
  split.
  { rewrite (fmap_insert_same call_of _ _ _ (Listing (LsAtRange _ _)) Hi eq_refl).
    exact Hcalls. }
  split; [apply (took_effect_snoc _ _ _ _ _ Hdone Hi); reflexivity|].
  split.
  { intros j [Hj| ->%list_elem_of_singleton]%elem_of_app; [apply (Hlt j Hj)|].
    apply (lookup_lt_Some _ _ _ Hi0). }
  split.
  { pose proof (count_reading_insert _ i _
                  (Listing (LsAtRange (length (snapshots (memory s)))
                              (map_to_list (clients (memory s))))) Hi) as Hc.
    simpl in Hc. lia. }
  split.
  { apply (results_snoc ts0 w0 _ _ _ _ _ Hres Hi). intros r Hr. discriminate. }
  split.
  { apply (listed_snoc ts0 w0 _ _ _ _ _ Hls Hi). intros out [= <-].
    destruct Hagree as (_ & _ & Hlen & _). exact Hlen. }
  split.
  - rewrite (sequence_snoc _ _ _ _ Hi0), run_app, Hcall0.
    apply (agrees_make _ _ _ _ Hagree Hi).
  - intros j x [[-> ->]|[Hne Hj]]%lookup_insert_cases; [reflexivity|].
    apply (Hall j x Hj).
Qed.

(** A turn of the range loop, or its end. *)
Lemma serial_range s i out rest w' t' :
  serial' s ->
  threads s !! i = Some (Listing (LsAtRange out rest)) ->
  reading t' = true -> listed_of t' = Some out -> call_of t' = CallListClients ->
  result_of t' = None -> writing t' = false ->
  (forall base,
      agrees base (memory s) (threads s) ->
      agrees base w' (<[i := t']> (threads s))) ->
  serial' (mkProcess w' (writer s) (readers s) (<[i := t']> (threads s))).
Proof.
  intros Hs Hi Hrt' Hlst' Hcall Hrest' Hwt' Hstep.
  pose proof (serial_no_writer s i _ Hs Hi eq_refl) as Hwr.
  destruct Hs as (done & Hnd & Hcalls & Hdone & Hlt & Hrd & Hres & Hls & Hw).
  rewrite Hwr in *. destruct Hw as [Hagree Hall].
  exists done. simpl. split; [exact Hnd|].
  split; [rewrite (fmap_insert_same _ _ _ _ _ Hi Hcall); exact Hcalls|].
  split.
  { apply (took_effect_same _ _ _ _ _ Hdone Hi). unfold took_effect.
    rewrite Hlst'. simpl. rewrite !orb_true_r. reflexivity. }
  split; [exact Hlt|].
  split.
  { pose proof (count_reading_insert _ i _ t' Hi) as Hc.
    rewrite Hrt' in Hc. simpl in Hc. lia. }
  split.
  { apply (results_same ts0 w0 _ _ _ _ _ Hres Hi). intros r Hr. congruence. }
  split.
  { apply (listed_same ts0 w0 _ _ _ _ _ Hls Hi). intros o Ho. simpl. congruence. }
  split; [apply Hstep, Hagree|].
  intros j x [[-> ->]|[Hne Hj]]%lookup_insert_cases; [exact Hwt'|].
  apply (Hall j x Hj).
Qed.

End SerialKinds.
Section SerialInvariant.
Context `{Imports}.
Variables (ts0 : list thread) (w0 : world).

#[local] Abbreviation serial'' := (serial ts0 w0).

Lemma serial_step_adding s i uid config privateKey p w' wr' rd' t' :
  serial'' s ->
  threads s !! i = Some (Adding uid config privateKey p) ->
  thread_step (memory s) (writer s) (readers s) (Adding uid config privateKey p)
  = Some (w', wr', rd', t') ->
  serial'' (mkProcess w' wr' rd' (<[i := t']> (threads s))).
Proof.
  intros Hs Hi Hstep.
  destruct p as [| |newOpts|newOpts|newOpts c|panicking| |]; simpl in Hstep.
  - destruct (writer s) eqn:Hwr; [discriminate|].
    destruct (readers s =? 0)%nat eqn:Hrd; [|discriminate].
    apply Nat.eqb_eq in Hrd. injection Hstep as <- <- <- <-.
    apply (serial_acquire ts0 w0 s i _ _ Hs Hi); try reflexivity; assumption.
  - destruct (newStableOptions uid config privateKey) as [newOpts|] eqn:HF;
      injection Hstep as <- <- <- <-;
      apply (serial_inside ts0 w0 s i _ _ _ Hs Hi); try reflexivity;
      intros base Hmid; simpl in *.
    + auto.
    + rewrite Hmid. unfold after. rewrite (ensureClient_panics _ _ _ _ HF).
      reflexivity.
  - fold (upToDate uid newOpts (memory s)) in Hstep.
    destruct (upToDate uid newOpts (memory s)) eqn:Hup;
      injection Hstep as <- <- <- <-;
      apply (serial_inside ts0 w0 s i _ _ _ Hs Hi); try reflexivity;
      intros base [HF Hmid]; simpl in *; rewrite Hmid in *.
    + unfold after. rewrite (ensureClient_hit _ _ _ _ _ HF Hup). reflexivity.
    + auto.
  - injection Hstep as <- <- <- <-.
    apply (serial_inside ts0 w0 s i _ _ _ Hs Hi); try reflexivity.
    intros base (HF & Hmid & Hup). simpl in *. rewrite Hmid. auto.
  - injection Hstep as <- <- <- <-.
    apply (serial_inside ts0 w0 s i _ _ _ Hs Hi); try reflexivity.
    intros base (HF & Hup & -> & Hmid). simpl in *. rewrite Hmid.
    unfold after. rewrite (ensureClient_miss _ _ _ _ _ HF Hup). reflexivity.
  - injection Hstep as <- <- <- <-.
    apply (serial_release ts0 w0 s i _ _ Hs Hi); try reflexivity;
      try (destruct panicking; reflexivity).
    intros base Hmid. simpl in *. exact Hmid.
  - discriminate.
  - discriminate.
Qed.

Lemma serial_step_removing s i uid p w' wr' rd' t' :
  serial'' s ->
  threads s !! i = Some (Removing uid p) ->
  thread_step (memory s) (writer s) (readers s) (Removing uid p)
  = Some (w', wr', rd', t') ->
  serial'' (mkProcess w' wr' rd' (<[i := t']> (threads s))).
Proof.
  intros Hs Hi Hstep. destruct p; simpl in Hstep.
  - destruct (writer s) eqn:Hwr; [discriminate|].
    destruct (readers s =? 0)%nat eqn:Hrd; [|discriminate].
    apply Nat.eqb_eq in Hrd. injection Hstep as <- <- <- <-.
    apply (serial_acquire ts0 w0 s i _ _ Hs Hi); try reflexivity; assumption.
  - destruct (clients (memory s) !! uid) as [meta|] eqn:Hlook;
      injection Hstep as <- <- <- <-;
      apply (serial_inside ts0 w0 s i _ _ _ Hs Hi); try reflexivity;
      intros base Hmid; simpl in *; rewrite Hmid in *.
    + split; [reflexivity|congruence].
    + unfold after. rewrite (RemoveClient_absent _ _ Hlook). reflexivity.
  - injection Hstep as <- <- <- <-.
    apply (serial_inside ts0 w0 s i _ _ _ Hs Hi); try reflexivity.
    intros base [Hmid Hsome]. simpl in *. rewrite Hmid.
    destruct (clients base !! uid) as [meta|] eqn:Hlook; [|congruence].
    unfold after. rewrite (RemoveClient_present _ _ _ Hlook). reflexivity.
  - injection Hstep as <- <- <- <-.
    apply (serial_release ts0 w0 s i _ _ Hs Hi); try reflexivity.
    intros base Hmid. simpl in *. exact Hmid.
  - discriminate.
Qed.

Lemma serial_step_getting s i uid p w' wr' rd' t' :
  serial'' s ->
  threads s !! i = Some (Getting uid p) ->
  thread_step (memory s) (writer s) (readers s) (Getting uid p)
  = Some (w', wr', rd', t') ->
  serial'' (mkProcess w' wr' rd' (<[i := t']> (threads s))).
Proof.
  intros Hs Hi Hstep. destruct p as [| |result|result]; simpl in Hstep.
  - destruct (writer s) eqn:Hwr; [discriminate|].
    injection Hstep as <- <- <- <-.
    pose proof (serial_rlock ts0 w0 s i _ (Getting uid GetAtLookup) Hs Hi
                  eq_refl Hwr eq_refl eq_refl eq_refl eq_refl eq_refl eq_refl)
      as Hnew.
    rewrite Hwr in Hnew. exact Hnew.
  - injection Hstep as <- <- <- <-. apply (serial_lookup ts0 w0 s i uid Hs Hi).
  - injection Hstep as <- <- <- <-.
    apply (serial_runlock ts0 w0 s i _ _ Hs Hi); try reflexivity.
    + intros out rest. discriminate.
    + intros r Hr. simpl in *. auto.
    + intros out Hout. discriminate.
  - discriminate.
Qed.

Lemma serial_step_listing s i p w' wr' rd' t' :
  serial'' s ->
  threads s !! i = Some (Listing p) ->
  thread_step (memory s) (writer s) (readers s) (Listing p)
  = Some (w', wr', rd', t') ->
  serial'' (mkProcess w' wr' rd' (<[i := t']> (threads s))).
Proof.
  intros Hs Hi Hstep. destruct p as [| |out rest|out|out]; simpl in Hstep.
  - destruct (writer s) eqn:Hwr; [discriminate|].
    injection Hstep as <- <- <- <-.
    pose proof (serial_rlock ts0 w0 s i _ (Listing LsAtMake) Hs Hi
                  eq_refl Hwr eq_refl eq_refl eq_refl eq_refl eq_refl eq_refl)
      as Hnew.
    rewrite Hwr in Hnew. exact Hnew.
  - injection Hstep as <- <- <- <-. apply (serial_make ts0 w0 s i Hs Hi).
  - destruct rest as [|[k v] rest]; injection Hstep as <- <- <- <-;
      apply (serial_range ts0 w0 s i out _ _ _ Hs Hi); try reflexivity;
      intros base Hagree.
    + apply (agrees_range_end _ _ _ _ out _ Hagree Hi). intros out' rest'.
      discriminate.
    + apply (agrees_assign _ _ _ _ _ _ _ _ Hagree Hi).
  - injection Hstep as <- <- <- <-.
    apply (serial_runlock ts0 w0 s i _ _ Hs Hi); try reflexivity.
    + intros out' rest. discriminate.
    + intros r Hr. discriminate.
    + intros out' Hout. simpl in *. exact Hout.
  - discriminate.
Qed.

Lemma serial_step s s' : serial'' s -> thread_runs s s' -> serial'' s'.
Proof.
  intros Hs Hstep. destruct Hstep as [s i t w' wr' rd' t' Hi Hstep].
  destruct t as [uid config privateKey p|uid p|uid p|p].
  - apply (serial_step_adding s i uid config privateKey p); assumption.
  - apply (serial_step_removing s i uid p); assumption.
  - apply (serial_step_getting s i uid p); assumption.
  - apply (serial_step_listing s i p); assumption.
Qed.

Lemma serial_launch :
  Forall (fun t => at_start t = true) ts0 -> serial'' (launch ts0 w0).
Proof.
  intros Hstart. rewrite Forall_lookup in Hstart. exists []. unfold launch. simpl.
  split; [apply NoDup_nil; exact I|]. split; [reflexivity|].
  split.
  { intros j t Hj. destruct (at_start_exclusive t (Hstart j t Hj)) as (-> & _).
    split; [intros []%not_elem_of_nil|discriminate]. }
  split; [intros j []%not_elem_of_nil|].
  split.
  { unfold count_reading. symmetry.
    destruct (Nat.eq_0_gt_0_cases
                (sum_list ((fun t => if reading t then 1%nat else 0%nat) <$> ts0)))
      as [Hz|Hpos]; [exact Hz|].
    apply sum_list_positive in Hpos as (j & t & Hj & Hpos).
    destruct (at_start_exclusive t (Hstart j t Hj)) as (_ & Hr & _).
    rewrite Hr in Hpos. lia. }
  split.
  { intros j t result Hj Hr.
    destruct (at_start_exclusive t (Hstart j t Hj)) as (_ & _ & _ & Hnone & _).
    congruence. }
  split.
  { intros j t out Hj Hout.
    destruct (at_start_exclusive t (Hstart j t Hj)) as (_ & _ & _ & _ & Hnone).
    congruence. }
  split.
  - apply agrees_refl. intros j t Hj.
    apply (at_start_exclusive t (Hstart j t Hj)).
  - intros j t Hj. apply (at_start_exclusive t (Hstart j t Hj)).
Qed.

End SerialInvariant.


Section SerialRuns.
Context `{Imports}.
Variables (ts0 : list thread) (w0 : world).
Hypothesis Hstart : Forall (fun t => at_start t = true) ts0.

#[local] Abbreviation serial''' := (serial ts0 w0).

Lemma thread_step_entries w wr rd t w' wr' rd' t' :
  thread_step w wr rd t = Some (w', wr', rd', t') ->
  (size (clients w') + (if before_store t' then 1 else 0)
   <= size (clients w) + (if before_store t then 1 else 0))%nat.
Proof.
  destruct t as [uid config privateKey p|uid p|uid p|p].
  - destruct p as [| |newOpts|newOpts|newOpts c|panicking| |]; simpl.
    + destruct (wr || negb (rd =? 0)%nat); [discriminate|].
      intros [= <- <- <- <-]. simpl. lia.
    + destruct (newStableOptions uid config privateKey);
        intros [= <- <- <- <-]; simpl; lia.
    + destruct (match clients w !! uid with Some _ => _ | None => _ end);
        intros [= <- <- <- <-]; simpl; lia.
    + intros [= <- <- <- <-]. simpl. lia.
    + intros [= <- <- <- <-]. simpl. rewrite map_size_insert.
      destruct (clients w !! uid); simpl; lia.
    + intros [= <- <- <- <-]. destruct panicking; simpl; lia.
    + discriminate.
    + discriminate.
  - destruct p; simpl.
    + destruct (wr || negb (rd =? 0)%nat); [discriminate|].
      intros [= <- <- <- <-]. simpl. lia.
    + destruct (clients w !! uid); intros [= <- <- <- <-]; simpl; lia.
    + intros [= <- <- <- <-]. simpl. rewrite map_size_delete.
      destruct (clients w !! uid); simpl; lia.
    + intros [= <- <- <- <-]. simpl. lia.
    + discriminate.
  - destruct p as [| |result|result]; simpl.
    + destruct wr; [discriminate|]. intros [= <- <- <- <-]. simpl. lia.
    + intros [= <- <- <- <-]. simpl. lia.
    + intros [= <- <- <- <-]. simpl. lia.
    + discriminate.
  - destruct p as [| |out rest|out|out]; simpl.
    + destruct wr; [discriminate|]. intros [= <- <- <- <-]. simpl. lia.
    + intros [= <- <- <- <-]. simpl. lia.
    + destruct rest as [|[k v] rest]; intros [= <- <- <- <-]; simpl; lia.
    + intros [= <- <- <- <-]. simpl. lia.
    + discriminate.
Qed.

Lemma thread_step_cost w wr rd t w' wr' rd' t' entries entries' :
  thread_step w wr rd t = Some (w', wr', rd', t') ->
  (entries' <= entries)%nat -> (size (clients w) <= entries)%nat ->
  (cost entries' t' < cost entries t)%nat.
Proof.
  intros Hstep Hle Hsize. revert Hstep.
  destruct t as [uid config privateKey p|uid p|uid p|p].
  - destruct p as [| |newOpts|newOpts|newOpts c|panicking| |]; simpl.
    + destruct (wr || negb (rd =? 0)%nat); [discriminate|].
      intros [= <- <- <- <-]. simpl. lia.
    + destruct (newStableOptions uid config privateKey);
        intros [= <- <- <- <-]; simpl; lia.
    + destruct (match clients w !! uid with Some _ => _ | None => _ end);
        intros [= <- <- <- <-]; simpl; lia.
    + intros [= <- <- <- <-]. simpl. lia.
    + intros [= <- <- <- <-]. simpl. lia.
    + intros [= <- <- <- <-]. destruct panicking; simpl; lia.
    + discriminate.
    + discriminate.
  - destruct p; simpl.
    + destruct (wr || negb (rd =? 0)%nat); [discriminate|].
      intros [= <- <- <- <-]. simpl. lia.
    + destruct (clients w !! uid); intros [= <- <- <- <-]; simpl; lia.
    + intros [= <- <- <- <-]. simpl. lia.
    + intros [= <- <- <- <-]. simpl. lia.
    + discriminate.
  - destruct p as [| |result|result]; simpl.
    + destruct wr; [discriminate|]. intros [= <- <- <- <-]. simpl. lia.
    + intros [= <- <- <- <-]. simpl. lia.
    + intros [= <- <- <- <-]. simpl. lia.
    + discriminate.
  - destruct p as [| |out rest|out|out]; simpl.
    + destruct wr; [discriminate|]. intros [= <- <- <- <-]. simpl. lia.
    + intros [= <- <- <- <-]. simpl. rewrite length_map_to_list. lia.
    + destruct rest as [|[k v] rest]; intros [= <- <- <- <-]; simpl; lia.
    + intros [= <- <- <- <-]. simpl. lia.
    + discriminate.
Qed.

Lemma cost_mono entries entries' t :
  (entries' <= entries)%nat -> (cost entries' t <= cost entries t)%nat.
Proof.
  intros Hle.
  destruct t as [uid config privateKey p|uid p|uid p|p]; destruct p; simpl; lia.
Qed.

Lemma thread_runs_potential s s' :
  thread_runs s s' -> (potential s' <= potential s)%nat.
Proof.
  intros [s0 i t w' wr' rd' t' Hi Hstep]. unfold potential. simpl.
  pose proof (thread_step_entries _ _ _ _ _ _ _ _ Hstep) as Hsize.
  pose proof (sum_list_insert
                (fun x => if before_store x then 1%nat else 0%nat) _ i t t' Hi)
    as Hcount.
  unfold count_before_store. lia.
Qed.

Lemma thread_runs_work s s' :
  thread_runs s s' -> (work_left s' < work_left s)%nat.
Proof.
  intros Hruns. pose proof (thread_runs_potential s s' Hruns) as Hpot.
  destruct Hruns as [s i t w' wr' rd' t' Hi Hstep]. unfold work_left.
  set (s' := mkProcess w' wr' rd' (<[i := t']> (threads s))) in *.
  change (threads s') with (<[i := t']> (threads s)).
  apply (sum_list_insert_lt _ _ _ _ t t' Hi).
  - intros z. apply cost_mono, Hpot.
  - apply (thread_step_cost _ _ _ _ _ _ _ _ _ _ Hstep Hpot).
    unfold potential. lia.
Qed.

Lemma work_left_launch :
  (work_left (launch ts0 w0) <= (size (clients w0) + length ts0 + 6) * length ts0)%nat.
Proof.
  unfold work_left, potential, launch. simpl.
  assert (count_before_store ts0 <= length ts0)%nat as Hcount.
  { unfold count_before_store. clear Hstart.
    induction ts0 as [|t ts IH]; simpl; [lia|].
    destruct (before_store t); unfold fmap in *; lia. }
  set (entries := (size (clients w0) + count_before_store ts0)%nat) in *.
  assert (forall ts : list thread,
             Forall (fun t => at_start t = true) ts ->
             (sum_list (cost entries <$> ts) <= (entries + 6) * length ts)%nat)
    as Hsum.
  { induction 1 as [|t ts Ht _ IH]; simpl; [lia|].
    assert (cost entries t <= entries + 6)%nat.
    { destruct t as [uid config privateKey p|uid p|uid p|p]; destruct p;
        simpl in *; try discriminate; lia. }
    unfold fmap in *. lia. }
  specialize (Hsum ts0 Hstart). nia.
Qed.

Lemma nsteps_serial k s :
  nsteps thread_runs k (launch ts0 w0) s ->
  serial''' s
  /\ (k + work_left s <= (size (clients w0) + length ts0 + 6) * length ts0)%nat.
Proof.
  assert (forall a b,
             nsteps thread_runs k a b -> serial''' a ->
             serial''' b /\ (k + work_left b <= work_left a)%nat) as Hgen.
  { induction 1 as [a|n a b c Hab _ IH]; intros Ha; [split; [exact Ha|lia]|].
    destruct (IH (serial_step ts0 w0 _ _ Ha Hab)) as [Hc Hle].
    pose proof (thread_runs_work _ _ Hab). split; [exact Hc|lia]. }
  intros Hrun. destruct (Hgen _ _ Hrun (serial_launch ts0 w0 Hstart)) as [Hs Hle].
  split; [exact Hs|]. pose proof work_left_launch. lia.
Qed.

Lemma midway_can_step t base w wr rd :
  midway t base w -> exists r, thread_step w wr rd t = Some r.
Proof.
  destruct t as [uid config privateKey p|uid p|uid p|p]; try contradiction.
  - destruct p as [| |newOpts|newOpts|newOpts c|panicking| |]; simpl;
      try contradiction; intros _.
    + destruct (newStableOptions uid config privateKey); eauto.
    + destruct (match clients w !! uid with Some _ => _ | None => _ end); eauto.
    + eauto.
    + eauto.
    + eauto.
  - destruct p; simpl; try contradiction; intros _.
    + destruct (clients w !! uid); eauto.
    + eauto.
    + eauto.
Qed.

Lemma midway_unfinished t base w : midway t base w -> finished t = false.
Proof.
  destruct t as [uid config privateKey p|uid p|uid p|p]; destruct p; simpl;
    try contradiction; reflexivity.
Qed.

Lemma thread_position t :
  finished t = true \/ writing t = true \/ reading t = true \/ at_start t = true.
Proof.
  destruct t as [uid config privateKey p|uid p|uid p|p]; destruct p; simpl; auto.
Qed.

Lemma reading_can_step t w rd :
  reading t = true -> exists r, thread_step w false rd t = Some r.
Proof.
  destruct t as [uid config privateKey p|uid p|uid p|p]; destruct p;
    simpl; try discriminate; intros _; eauto.
  destruct rest as [|[k v] rest]; eauto.
Qed.

Lemma at_start_can_step t w :
  at_start t = true -> exists r, thread_step w false 0 t = Some r.
Proof.
  destruct t as [uid config privateKey p|uid p|uid p|p]; destruct p;
    simpl; try discriminate; intros _; eauto.
Qed.

Lemma all_finished_or_not (ts : list thread) :
  Forall (fun t => finished t = true) ts
  \/ exists i t, ts !! i = Some t /\ finished t = false.
Proof.
  induction ts as [|t ts IH]; [left; constructor|].
  destruct (finished t) eqn:Hf.
  - destruct IH as [Hall|(i & x & Hi & Hx)].
    + left. constructor; assumption.
    + right. exists (S i), x. auto.
  - right. exists 0%nat, t. auto.
Qed.

Lemma serial_progress s :
  serial''' s ->
  (exists s', thread_runs s s') \/ Forall (fun t => finished t = true) (threads s).
Proof.
  intros (done & _ & _ & _ & _ & Hrd & _ & _ & Hw).
  assert (forall i t r,
             threads s !! i = Some t ->
             thread_step (memory s) (writer s) (readers s) t = Some r ->
             exists s', thread_runs s s') as Hgo.
  { intros i t [[[w' wr'] rd'] t'] Hi Hstep. eexists.
    apply (thread_runs_step s i t w' wr' rd' t' Hi Hstep). }
  destruct (writer s) eqn:Hwr.
  - destruct Hw as (_ & i & t & Hi & Hmid & _). left.
    destruct (midway_can_step t _ _ true (readers s) Hmid) as [r Hstep].
    apply (Hgo i t r Hi Hstep).
  - destruct Hw as [_ Hall].
    destruct (all_finished_or_not (threads s)) as [Hfin|(i & t & Hi & Hunf)];
      [right; exact Hfin|left].
    destruct (Nat.eq_0_gt_0_cases (count_reading (threads s))) as [Hz|Hpos].
    + destruct (thread_position t) as [Hf|[Hwt|[Hrt|Hst]]].
      * congruence.
      * rewrite (Hall i t Hi) in Hwt. discriminate.
      * pose proof (count_reading_member _ i t Hi Hrt). lia.
      * rewrite Hz in Hrd. rewrite Hrd in Hgo.
        destruct (at_start_can_step t (memory s) Hst) as [r Hstep].
        apply (Hgo i t r Hi Hstep).
    + apply sum_list_positive in Hpos as (j & x & Hj & Hx).
      assert (reading x = true) as Hrx by (destruct (reading x); [reflexivity|lia]).
      destruct (reading_can_step x (memory s) (readers s) Hrx) as [r Hstep].
      apply (Hgo j x r Hj Hstep).
Qed.

Lemma serial_finishes m s :
  (work_left s <= m)%nat -> serial''' s ->
  exists s', rtc thread_runs s s' /\ Forall (fun t => finished t = true) (threads s').
Proof.
  revert s. induction m as [|m IH]; intros s Hwork Hs;
    destruct (serial_progress s Hs) as [[s' Hstep]|Hall];
    try (exists s; split; [apply rtc_refl|exact Hall]).
  - pose proof (thread_runs_work _ _ Hstep). lia.
  - pose proof (thread_runs_work _ _ Hstep).
    destruct (IH s') as (s'' & Hrun & Hall);
      [lia|apply (serial_step ts0 w0 s); assumption|].
    exists s''. split; [|exact Hall]. apply (rtc_l _ _ s'); assumption.
Qed.

End SerialRuns.

Section Interleavings.
Context `{Imports}.

Lemma advance_runs i s : advance i s = s \/ thread_runs s (advance i s).
Proof.
  unfold advance. destruct (threads s !! i) as [t|] eqn:Hi; [|left; reflexivity].
  destruct (thread_step (memory s) (writer s) (readers s) t)
    as [[[[w' wr'] rd'] t']|] eqn:Hstep; [|left; reflexivity].
  right. apply (thread_runs_step s i t w' wr' rd' t' Hi Hstep).
Qed.

Lemma interleave_nsteps order s :
  exists k, nsteps thread_runs k s (interleave order s).
Proof.
  revert s. induction order as [|i order IH]; intros s; simpl.
  - exists 0%nat. constructor.
  - destruct (IH (advance i s)) as [k Hk].
    destruct (advance_runs i s) as [Heq|Hstep].
    + exists k. rewrite Heq in Hk |- *. exact Hk.
    + exists (S k). apply (nsteps_l _ _ _ _ _ Hstep Hk).
Qed.

Lemma finished_not_reading t : finished t = true -> reading t = false.
Proof.
  destruct t as [uid config privateKey p|uid p|uid p|p]; destruct p;
    simpl; try discriminate; reflexivity.
Qed.

(** X11. The lock discipline of the registry.  In every state that
    threads calling [AddClient], [RemoveClient], [GetClient] and
    [ListClients] reach, however they interleave: a thread between [Lock]
    and [Unlock] is the only thread inside the lock, no thread is then
    between [RLock] and [RUnlock], and the reader count is the number of
    threads between [RLock] and [RUnlock]. *)
Theorem lock_discipline (ts : list thread) (w : world) (k : nat) (s : process) :
  Forall (fun t => at_start t = true) ts ->
  nsteps thread_runs k (launch ts w) s ->
  readers s = count_reading (threads s)
  /\ (forall i t,
        threads s !! i = Some t -> writing t = true ->
        writer s = true /\ readers s = 0%nat
        /\ forall j t',
            threads s !! j = Some t' ->
            writing t' = true \/ reading t' = true -> j = i)
  /\ (forall i t,
        threads s !! i = Some t -> reading t = true -> writer s = false).
Proof.
  intros Hstart Hrun. destruct (nsteps_serial ts w Hstart k s Hrun) as [Hs _].
  pose proof Hs as (done & _ & _ & _ & _ & Hrd & _ & _ & Hw).
  split; [exact Hrd|]. split.
  - intros i t Hi Hwt. destruct (writer s) eqn:Hwr.
    2: { destruct Hw as [_ Hall]. rewrite (Hall i t Hi) in Hwt. discriminate. }
    destruct Hw as (Hrd0 & i0 & t0 & Hi0 & _ & Hothers).
    assert (i0 = i) as ->.
    { destruct (decide (i = i0)) as [->|Hne]; [reflexivity|].
      rewrite (Hothers i t Hne Hi) in Hwt. discriminate. }
    repeat split; [exact Hrd0|]. intros j t' Hj [Hwt'|Hrt'].
    + destruct (decide (j = i)) as [->|Hne]; [reflexivity|].
      rewrite (Hothers j t' Hne Hj) in Hwt'. discriminate.
    + pose proof (count_reading_member _ j t' Hj Hrt'). lia.
  - intros i t Hi Hrt. apply (serial_no_writer ts w s i t Hs Hi Hrt).
Qed.

(** X12. Calls on the registry are serializable.  When threads calling
    [AddClient], [RemoveClient], [GetClient] and [ListClients] have all
    finished, however they interleaved, the registry is the one that their
    calls leave behind when made one after another in some order; each
    [GetClient] has returned what it returns at its place in that order,
    each [ListClients] the map it returns there, holding the clients
    registered at that place; and the lock is free, also when an
    [AddClient] has panicked. *)
Theorem calls_serializable (ts : list thread) (w : world) (k : nat) (s : process) :
  Forall (fun t => at_start t = true) ts ->
  nsteps thread_runs k (launch ts w) s ->
  Forall (fun t => finished t = true) (threads s) ->
  exists order,
    order ≡ₚ seq 0 (length ts)
    /\ memory s = run (sequence ts order) w
    /\ writer s = false /\ readers s = 0%nat
    /\ call_of <$> threads s = call_of <$> ts
    /\ (forall j uid result,
          threads s !! j = Some (Getting uid (GetReturned result)) ->
          exists pre post,
            order = pre ++ j :: post
            /\ GetClient uid (run (sequence ts pre) w)
               = (Returns result, run (sequence ts pre) w))
    /\ (forall j out,
          threads s !! j = Some (Listing (LsReturned out)) ->
          exists pre post,
            order = pre ++ j :: post
            /\ ListClients (run (sequence ts pre) w)
               = (Returns out, run (sequence ts (pre ++ [j])) w)
            /\ snapshots (memory s) !! out
               = Some (Interface <$> clients (run (sequence ts pre) w))).
Proof.
  intros Hstart Hrun Hfin. destruct (nsteps_serial ts w Hstart k s Hrun) as [Hs _].
  destruct Hs as (done & Hnd & Hcalls & Hdone & Hlt & Hrd & Hres & Hls & Hw).
  rewrite Forall_lookup in Hfin.
  assert (writer s = false) as Hwr.
  { destruct (writer s); [|reflexivity].
    destruct Hw as (_ & i & t & Hi & Hmid & _).
    apply midway_unfinished in Hmid. rewrite (Hfin i t Hi) in Hmid. discriminate. }
  rewrite Hwr in Hw. destruct Hw as [Hagree _].
  assert (memory s = run (sequence ts done) w) as Hmem.
  { apply (agrees_eq _ _ _ Hagree). intros j t Hj.
    apply finished_not_reading, (Hfin j t Hj). }
  exists done. split; [|split; [|split; [|split; [|split; [|split]]]]].
  - apply NoDup_Permutation; [exact Hnd|apply NoDup_seq|].
    intros j. rewrite elem_of_seq. split.
    + intros Hj. pose proof (Hlt j Hj). lia.
    + intros [_ Hj]. simpl in Hj.
      assert (length (threads s) = length ts) as Hlen.
      { rewrite <- (length_fmap call_of), Hcalls. apply length_fmap. }
      destruct (lookup_lt_is_Some_2 (threads s) j) as [t Ht]; [lia|].
      apply (Hdone j t Ht). unfold took_effect. rewrite (Hfin j t Ht). reflexivity.
  - exact Hmem.
  - exact Hwr.
  - rewrite Hrd.
    destruct (Nat.eq_0_gt_0_cases (count_reading (threads s))) as [Hz|Hpos];
      [exact Hz|].
    apply sum_list_positive in Hpos as (j & t & Hj & Hpos).
    rewrite (finished_not_reading t (Hfin j t Hj)) in Hpos. lia.
  - exact Hcalls.
  - intros j uid result Hj.
    destruct (Hres j _ result Hj eq_refl) as (pre & post & Hord & Hget).
    exists pre, post. split; [exact Hord|]. simpl in Hget.
    rewrite GetClient_lookup in Hget |- *. simpl in Hget. rewrite Hget.
    reflexivity.
  - intros j out Hj.
    destruct (Hls j _ out Hj eq_refl) as (pre & post & Hord & Hout).
    destruct (serial_index ts _ j _ Hcalls Hj) as (t0 & Hj0 & Hcall0).
    exists pre, post. split; [exact Hord|].
    assert (run (sequence ts (pre ++ [j])) w
            = mkWorld (clients (run (sequence ts pre) w))
                (heap (run (sequence ts pre) w))
                (snapshots (run (sequence ts pre) w)
                   ++ [Interface <$> clients (run (sequence ts pre) w)]))
      as Hlisted.
    { rewrite (sequence_snoc _ _ _ _ Hj0), run_app, Hcall0. simpl.
      unfold after. rewrite ListClients_world. reflexivity. }
    split.
    + rewrite ListClients_world, Hlisted, Hout. reflexivity.
    + rewrite Hmem, Hord.
      change (pre ++ j :: post) with (pre ++ [j] ++ post).
      rewrite app_assoc. unfold sequence at 1. rewrite omap_app.
      fold (sequence ts (pre ++ [j])). fold (sequence ts post).
      rewrite run_app.
      destruct (run_snapshots (sequence ts post) (run (sequence ts (pre ++ [j])) w))
        as [extra ->].
      rewrite Hlisted. simpl. rewrite <- app_assoc, Hout.
      apply list_lookup_middle. reflexivity.
Qed.

(** X13. No call blocks for ever, with [RLock] waiting only for a writer
    that holds the lock.  Threads calling [AddClient], [RemoveClient],
    [GetClient] and [ListClients] run a bounded number of statements;
    whenever some thread has not finished, some thread can run, also after
    an [AddClient] has panicked under the lock; so every interleaving can
    be continued until all have finished. *)
Theorem threads_finish (ts : list thread) (w : world) :
  Forall (fun t => at_start t = true) ts ->
  (exists s,
      rtc thread_runs (launch ts w) s
      /\ Forall (fun t => finished t = true) (threads s))
  /\ forall k s,
      nsteps thread_runs k (launch ts w) s ->
      (k <= (size (clients w) + length ts + 6) * length ts)%nat
      /\ ((exists s', thread_runs s s')
          \/ Forall (fun t => finished t = true) (threads s)).
Proof.
  intros Hstart. split.
  - apply (serial_finishes ts w (work_left (launch ts w)));
      [lia|apply serial_launch, Hstart].
  - intros k s Hrun. destruct (nsteps_serial ts w Hstart k s Hrun) as [Hs Hle].
    split; [lia|]. apply (serial_progress ts w s Hs).
Qed.

End Interleavings.

Example three_threads_interleaved :
  let s := interleave (H := sample.imports) sample.three_order
             (launch sample.three_threads NewDefaultRegistry) in
  threads s
  = [Adding "a" sample.config (Some sample.key) Returned;
     Adding "b" sample.staging None Crashed;
     Getting "a" (GetReturned (None, Some ErrNotFound))]
  /\ writer s = false /\ readers s = 0%nat
  /\ memory s = sample.registered.
Proof. vm_compute. repeat split; reflexivity. Qed.

Example four_threads_interleaved :
  let s := interleave (H := sample.imports) sample.four_order
             (launch sample.four_threads sample.registered) in
  threads s
  = [Listing (LsReturned 0%nat);
     Adding "a" sample.staging (Some sample.otherKey) Returned;
     Listing (LsReturned 1%nat);
     Removing "a" RmReturned]
  /\ writer s = false /\ readers s = 0%nat
  /\ snapshots (memory s) = [{["a" := Some 0%nat]}; {["a" := Some 0%nat]}]
  /\ constructions (memory s) = 2%nat.
Proof. vm_compute. repeat split; reflexivity. Qed.

Lemma lock_discipline_witness :
  let s := interleave (H := sample.imports) [0; 2; 0; 1]%nat
             (launch sample.four_threads sample.registered) in
  readers s = count_reading (threads s)
  /\ forall i t, threads s !! i = Some t -> reading t = true -> writer s = false.
Proof.
  intros s.
  destruct (interleave_nsteps (H := sample.imports) [0; 2; 0; 1]%nat
              (launch sample.four_threads sample.registered)) as [k Hk].
  destruct (lock_discipline (H := sample.imports) sample.four_threads
              sample.registered k s) as (Hrd & _ & Hread).
  - repeat constructor.
  - exact Hk.
  - split; [exact Hrd|exact Hread].
Defined.

Lemma calls_serializable_witness :
  exists order,
    order ≡ₚ [0; 1; 2; 3]%nat
    /\ memory (interleave (H := sample.imports) sample.four_order
                 (launch sample.four_threads sample.registered))
       = run (H := sample.imports) (sequence sample.four_threads order)
           sample.registered.
Proof.
  destruct (interleave_nsteps (H := sample.imports) sample.four_order
              (launch sample.four_threads sample.registered)) as [k Hk].
  destruct (calls_serializable (H := sample.imports) sample.four_threads
              sample.registered k _ ltac:(repeat constructor) Hk)
    as (order & Hperm & Hmem & _).
  - vm_compute. repeat constructor.
  - exists order. split; [exact Hperm|exact Hmem].
Defined.

Lemma threads_finish_witness :
  exists s,
    rtc (thread_runs (H := sample.imports))
      (launch sample.four_threads sample.registered) s
    /\ Forall (fun t => finished t = true) (threads s).
Proof.
  apply (threads_finish (H := sample.imports) sample.four_threads
           sample.registered).
  repeat constructor.
Defined.
